(** * A shallow embedding of SudokuGame.py

    The Python module defines a cell type [SudokuEntry] (a [fixed] flag and
    a [domain] list of candidate values), a board type [SudokuState] (a
    counter [num_placed] and a 9 x 9 list of lists of entries) and a generic
    depth-first enumeration [dfs].

    Conventions of the embedding:
    - Python integers are [Z]; row and column numbers are [nat], as [range]
      produces them (Python's negative indices are not modelled);
    - a method that mutates [self] becomes a function from the old value of
      [self] to the new one (explicit state passing); the last part runs
      [next_states] on a store of objects instead;
    - a method that may raise returns in the [result] monad; the exceptions
      this module can raise are listed in [exn]; no function of the module
      catches an exception, so the partly updated object of a call that
      raises is not returned;
    - [SudokuEntry.fix] is called [fix_entry], [fix] being a keyword;
    - a [for] loop over [range(n)] is [for_each] / [for_loop] over
      [range n]; [for_loop] is used where the body contains a [return];
    - a recursive function takes its remaining call depth as first
      argument and raises [RecursionError] when the depth is used up. *)

From stdpp Require Import base option list gmap.
From Stdlib Require Import ZArith Lia.

Open Scope Z_scope.

(** ** Exceptions and the result monad *)

Inductive exn : Set :=
  | AssertionError   (* a failed [assert] *)
  | IndexError       (* list index out of range *)
  | ValueError       (* [list.remove(x)]: x not in list *)
  | TypeError        (* unpacking [None] *)
  | NameError        (* a reference that denotes no object *)
  | RecursionError.  (* call depth exhausted *)

Inductive result (A : Type) : Type :=
  | Ok (a : A)
  | Raise (e : exn).
Arguments Ok {A} a.
Arguments Raise {A} e.

#[export] Instance result_ret : MRet result := λ A a, Ok a.
#[export] Instance result_bind : MBind result := λ A B f m,
  match m with
  | Ok a => f a
  | Raise e => Raise e
  end.

(** [l[i]] on a Python list, for a non-negative index. *)
Definition index {A} (l : list A) (i : nat) : result A :=
  match l !! i with
  | Some x => Ok x
  | None => Raise IndexError
  end.

(** [range(n)] *)
Definition range (n : nat) : list nat := seq 0 n.

(** [for x in xs: s = body(x, s)] *)
Fixpoint for_each {A S} (xs : list A) (body : A → S → result S) (s : S)
  : result S :=
  match xs with
  | [] => Ok s
  | x :: xs' => s' ← body x s; for_each xs' body s'
  end.

(** Control flow out of a loop body that may execute [return r]. *)
Inductive flow (S R : Type) : Type :=
  | Continue (s : S)
  | Return (r : R).
Arguments Continue {S R} s.
Arguments Return {S R} r.

(** [for x in xs: body], where the body may return from the enclosing
    function.  A nested loop is a [for_loop] whose body is a [for_loop]. *)
Fixpoint for_loop {A S R} (xs : list A) (body : A → S → result (flow S R))
  (s : S) : result (flow S R) :=
  match xs with
  | [] => Ok (Continue s)
  | x :: xs' =>
      f ← body x s;
      match f with
      | Continue s' => for_loop xs' body s'
      | Return r => Ok (Return r)
      end
  end.

(** ** class SudokuEntry *)

Record SudokuEntry : Type := mkEntry {
  fixed : bool;
  domain : list Z
}.

(** [SudokuEntry.__init__]: [fixed = False], [domain = list(range(1, 10))]. *)
Definition new_entry : SudokuEntry :=
  {| fixed := false; domain := [1; 2; 3; 4; 5; 6; 7; 8; 9] |}.

Definition is_fixed (e : SudokuEntry) : bool := fixed e.
Definition width (e : SudokuEntry) : nat := length (domain e).
Definition values (e : SudokuEntry) : list Z := domain e.
Definition has_conflict (e : SudokuEntry) : bool :=
  bool_decide (length (domain e) = 0%nat).

(** [n in l] *)
Definition contains (n : Z) (l : list Z) : bool := bool_decide (n ∈ l).

(** [l.remove(n)]: deletes the first occurrence, [ValueError] if none. *)
Fixpoint remove (n : Z) (l : list Z) : result (list Z) :=
  match l with
  | [] => Raise ValueError
  | x :: l' =>
      if bool_decide (x = n) then Ok l'
      else l'' ← remove n l'; Ok (x :: l'')
  end.

(** [SudokuEntry.fix] *)
Definition fix_entry (n : Z) (e : SudokuEntry) : result SudokuEntry :=
  if contains n (domain e)
  then Ok {| fixed := true; domain := [n] |}
  else Raise AssertionError.

(** [SudokuEntry.eliminate] *)
Definition eliminate (n : Z) (e : SudokuEntry) : result SudokuEntry :=
  if contains n (domain e) then
    if negb (fixed e) then
      d ← remove n (domain e);
      Ok {| fixed := fixed e; domain := d |}
    else Raise AssertionError
  else Ok e.

(** ** class SudokuState *)

(** [self.size] is set to 9 by the constructor and never assigned again. *)
Definition size : nat := 9.

Record SudokuState : Type := mkState {
  num_placed : Z;
  board : list (list SudokuEntry)
}.

(** [SudokuState.__init__] *)
Definition new_state : SudokuState :=
  {| num_placed := 0;
     board := replicate size (replicate size new_entry) |}.

(** [self.board[row][col]] *)
Definition get_entry (self : SudokuState) (row col : nat)
  : result SudokuEntry :=
  r ← index (board self) row; index r col.

(** The board after the entry object at [row][col] has been mutated into
    [e]. *)
Definition set_entry (self : SudokuState) (row col : nat) (e : SudokuEntry)
  : SudokuState :=
  {| num_placed := num_placed self;
     board := alter (λ r, <[col := e]> r) row (board self) |}.

Definition get_subgrid_number (row col : nat) : nat :=
  let row_q := (row / 3)%nat in
  let col_q := (col / 3)%nat in
  (row_q * 3 + col_q + 1)%nat.

Definition remove_conflict (row col : nat) (num : Z) (self : SudokuState)
  : result SudokuState :=
  e ← get_entry self row col;
  if negb (is_fixed e) then
    e' ← eliminate num e;
    Ok (set_entry self row col e')
  else Ok self.

Definition remove_all_conflicts (row col : nat) (num : Z)
  (self : SudokuState) : result SudokuState :=
  self ← for_each (range size) (λ i, remove_conflict i col num) self;
  self ← for_each (range size) (λ j, remove_conflict row j num) self;
  for_each (range size) (λ k,
    for_each (range size) (λ l self,
      if bool_decide (get_subgrid_number k l = get_subgrid_number row col)
      then remove_conflict k l num self
      else Ok self)) self.

Definition add_number (row col : nat) (num : Z) (self : SudokuState)
  : result SudokuState :=
  e ← get_entry self row col;
  e' ← fix_entry num e;
  let self := set_entry self row col e' in
  let self :=
    {| num_placed := num_placed self + 1; board := board self |} in
  remove_all_conflicts row col num self.

Definition get_most_constrained_cell (self : SudokuState)
  : result (option (nat * nat)) :=
  acc ← for_each (range size) (λ row,
    for_each (range size) (λ col (acc : nat * option (nat * nat)),
      let '(dom, location) := acc in
      e ← get_entry self row col;
      if negb (is_fixed e) && bool_decide (width e ≤ dom)%nat
      then Ok (width e, Some (row, col))
      else Ok (dom, location))) (size, None);
  Ok acc.2.

Definition solution_is_possible (self : SudokuState) : result bool :=
  f ← for_loop (range size) (λ row,
    for_loop (range size) (λ col (_ : unit),
      e ← get_entry self row col;
      if has_conflict e then Ok (Return false) else Ok (Continue tt)))
    tt;
  match f with
  | Return r => Ok r
  | Continue _ => Ok true
  end.

Definition is_goal (self : SudokuState) : bool :=
  bool_decide (Z.of_nat (size * size) = num_placed self).

(** One activation of [propagate]; [rec] stands for the recursive call. *)
Definition propagate_body (rec : SudokuState → result SudokuState)
  (self : SudokuState) : result SudokuState :=
  f ← for_loop (range size) (λ ri,
    for_loop (range size) (λ ci self,
      e ← get_entry self ri ci;
      if negb (is_fixed e) && bool_decide (width e = 1%nat) then
        v ← index (values e) 0;
        self ← add_number ri ci v self;
        ok ← solution_is_possible self;
        if (ok : bool) then
          self ← rec self;
          Ok (Return self)
        else Ok (Continue self)
      else Ok (Continue self))) self;
  match f with
  | Return self => Ok self
  | Continue self => Ok self
  end.

Fixpoint propagate (depth : nat) (self : SudokuState)
  : result SudokuState :=
  match depth with
  | O => Raise RecursionError
  | S depth' => propagate_body (propagate depth') self
  end.

(** [copy.deepcopy(self)]: on values, the copy is the value itself. *)
Definition deepcopy (self : SudokuState) : SudokuState := self.

Definition next_states (depth : nat) (self : SudokuState)
  : result (list SudokuState) :=
  loc ← get_most_constrained_cell self;
  match loc with
  | None => Raise TypeError
  | Some (row, col) =>
      e ← get_entry self row col;
      for_each (values e) (λ value next_state,
        let new_board := deepcopy self in
        new_board ← add_number row col value new_board;
        new_board ← propagate depth new_board;
        ok ← solution_is_possible new_board;
        if (ok : bool) then Ok (next_state ++ [new_board])
        else Ok next_state) []
  end.

(** ** The search driver *)

Section Search.
Context {State : Type}.
Variable goal : State → bool.
Variable successors : State → result (list State).

Fixpoint dfs (depth : nat) (state : State) : result (list State) :=
  match depth with
  | O => Raise RecursionError
  | S depth' =>
      if goal state then Ok [state]
      else
        succs ← successors state;
        for_each succs (λ s result, r ← dfs depth' s; Ok (result ++ r)) []
  end.

End Search.

(** [dfs] on Sudoku boards. *)
Definition solve (depth : nat) (self : SudokuState)
  : result (list SudokuState) :=
  dfs is_goal (next_states depth) depth self.

(** ** Specification vocabulary *)

(** The entry stored at a position, if the position exists. *)
Definition cell (b : SudokuState) (p q : nat) : option SudokuEntry :=
  r ← board b !! p; r !! q.

(** Every position of the 9 x 9 grid exists. *)
Definition grid_ok (b : SudokuState) : Prop :=
  ∀ p q, (p < size)%nat → (q < size)%nat → is_Some (cell b p q).

(** All pairs of an element of [xs] and one of [ys], in the order in which
    two nested loops meet them. *)
Definition grid {A B} (xs : list A) (ys : list B) : list (A * B) :=
  x ← xs; pair x <$> ys.

(** The 81 positions in row-major order. *)
Definition positions : list (nat * nat) := grid (range size) (range size).

(** [(p, q)] comes before [(i, j)] in the row-major scan. *)
Definition row_major_lt (a b : nat * nat) : Prop :=
  (a.1 < b.1 ∨ a.1 = b.1 ∧ a.2 < b.2)%nat.

(** [(p, q)] is in the row, the column or the subgrid of [(row, col)]. *)
Definition peer (row col p q : nat) : Prop :=
  (p < size ∧ q < size)%nat ∧
  (q = col ∨ p = row ∨
   get_subgrid_number p q = get_subgrid_number row col).

(** [l] without the first occurrence of [n], if there is one. *)
Fixpoint strike (n : Z) (l : list Z) : list Z :=
  match l with
  | [] => []
  | x :: l' => if bool_decide (x = n) then l' else x :: strike n l'
  end.

(** What [remove_conflict] does to the entry it visits. *)
Definition strike_entry (n : Z) (e : SudokuEntry) : SudokuEntry :=
  if fixed e then e else {| fixed := false; domain := strike n (domain e) |}.

(** [b'] is [b] after [remove_conflict _ _ n] has visited exactly the
    positions in [V], each of them once or several times. *)
Definition struck (n : Z) (V : nat → nat → Prop) (b b' : SudokuState)
  : Prop :=
  num_placed b' = num_placed b ∧
  ∀ p q, ∃ k, cell b' p q = Nat.iter k (strike_entry n) <$> cell b p q ∧
              ((0 < k)%nat ↔ V p q).

(** The condition under which [propagate] fixes a cell. *)
Definition forced (e : SudokuEntry) : bool :=
  negb (is_fixed e) && bool_decide (width e = 1%nat).

(** No cell of the grid has an empty domain / some cell has one. *)
Definition possible (b : SudokuState) : Prop :=
  ∀ p q e, (p < size)%nat → (q < size)%nat →
           cell b p q = Some e → domain e ≠ [].
Definition impossible (b : SudokuState) : Prop :=
  ∃ p q e, (p < size)%nat ∧ (q < size)%nat ∧
           cell b p q = Some e ∧ domain e = [].

(** A domain as the constructor and [eliminate] leave it: some of the
    values 1..9, in ascending order. *)
Definition domain_ok (d : list Z) : Prop :=
  d `sublist_of` [1; 2; 3; 4; 5; 6; 7; 8; 9].
Definition domains_ok (b : SudokuState) : Prop :=
  ∀ p q e, (p < size)%nat → (q < size)%nat →
           cell b p q = Some e → domain_ok (domain e).

(** Whether the cell at a position is fixed. *)
Definition cell_fixed (b : SudokuState) (pos : nat * nat) : bool :=
  match cell b pos.1 pos.2 with
  | Some e => fixed e
  | None => false
  end.

(** The number of fixed cells among the 81 positions. *)
Definition count_fixed (b : SudokuState) : nat :=
  length (filter (λ pos, cell_fixed b pos = true) positions).

(** The board invariant: the grid is complete, the counter counts the
    fixed cells, and a fixed cell has exactly one value. *)
Definition counter_ok (b : SudokuState) : Prop :=
  num_placed b = Z.of_nat (count_fixed b).
Definition fixed_ok (b : SudokuState) : Prop :=
  ∀ p q e, (p < size)%nat → (q < size)%nat →
           cell b p q = Some e → fixed e = true →
           length (domain e) = 1%nat.
Definition board_inv (b : SudokuState) : Prop :=
  grid_ok b ∧ counter_ok b ∧ fixed_ok b.

(** [b1] is [b] after the candidate [v] of the unfixed cell at [(r, c)]
    has been placed there. *)
Definition places (r c : nat) (v : Z) (b b1 : SudokuState) : Prop :=
  (r < size)%nat ∧ (c < size)%nat ∧
  (∃ e, cell b r c = Some e ∧ fixed e = false ∧ v ∈ domain e) ∧
  add_number r c v b = Ok b1.

(** [b1] is [b] after [propagate] has fixed the forced cell at [(r, c)]
    to its only value [v]. *)
Definition fixes (r c : nat) (v : Z) (b b1 : SudokuState) : Prop :=
  (r < size)%nat ∧ (c < size)%nat ∧
  (∃ e, cell b r c = Some e ∧ fixed e = false ∧ domain e = [v]) ∧
  add_number r c v b = Ok b1.

(** What the scan has established about the cells it has seen. *)
Definition mcc_inv (b : SudokuState) (done : list (nat * nat))
    (acc : nat * option (nat * nat)) : Prop :=
  (acc.1 ≤ size)%nat ∧
  match acc.2 with
  | None =>
      acc.1 = size ∧
      ∀ p q e, (p, q) ∈ done → cell b p q = Some e → fixed e = false →
               (size < width e)%nat
  | Some (i, j) =>
      (i, j) ∈ done ∧
      (∃ e, cell b i j = Some e ∧ fixed e = false ∧ width e = acc.1) ∧
      ∀ p q e, (p, q) ∈ done → cell b p q = Some e → fixed e = false →
               (acc.1 ≤ width e)%nat ∧
               (width e = acc.1 →
                (p, q) = (i, j) ∨ row_major_lt (p, q) (i, j))
  end.

(** ** [propagate] with a record of the cells it fixes

    [propagate_log] is [propagate] with one addition: each call of
    [add_number] is recorded, in order, with the answer that
    [solution_is_possible] gave right after it.  [propagate_erase] below
    shows that the board it computes is the one [propagate] computes. *)

Record event : Type := mkEvent {
  ev_row : nat;
  ev_col : nat;
  ev_value : Z;
  ev_possible : bool
}.

Definition ev_pos (ev : event) : nat * nat := (ev_row ev, ev_col ev).

Definition propagate_log_body
    (rec : SudokuState → result (SudokuState * list event))
    (self : SudokuState) : result (SudokuState * list event) :=
  f ← for_loop (range size) (λ ri,
    for_loop (range size) (λ ci (st : SudokuState * list event),
      let '(self, log) := st in
      e ← get_entry self ri ci;
      if negb (is_fixed e) && bool_decide (width e = 1%nat) then
        v ← index (values e) 0;
        self ← add_number ri ci v self;
        ok ← solution_is_possible self;
        let log := log ++ [mkEvent ri ci v ok] in
        if (ok : bool) then
          r ← rec self;
          Ok (Return (r.1, log ++ r.2))
        else Ok (Continue (self, log))
      else Ok (Continue (self, log)))) (self, []);
  match f with
  | Return r => Ok r
  | Continue r => Ok r
  end.

Fixpoint propagate_log (depth : nat) (self : SudokuState)
  : result (SudokuState * list event) :=
  match depth with
  | O => Raise RecursionError
  | S depth' => propagate_log_body (propagate_log depth') self
  end.

(** Forget the record. *)
Definition drop_log (r : result (SudokuState * list event))
  : result SudokuState :=
  p ← r; Ok p.1.

(** No cell of the grid is forced. *)
Definition no_forced (b : SudokuState) : Prop :=
  ∀ p q e, (p < size)%nat → (q < size)%nat →
           cell b p q = Some e → forced e = false.

(** The event [ev] describes a step from [b] to [b1]. *)
Definition ev_fixes (ev : event) (b b1 : SudokuState) : Prop :=
  fixes (ev_row ev) (ev_col ev) (ev_value ev) b b1 ∧
  solution_is_possible b1 = Ok (ev_possible ev).

(** The events of [log], performed in order from [b], lead to [b']. *)
Inductive replay : SudokuState → list event → SudokuState → Prop :=
  | replay_nil b : replay b [] b
  | replay_cons b ev b1 log b2 :
      ev_fixes ev b b1 → replay b1 log b2 → replay b (ev :: log) b2.

(** The events of [log] lie at later and later positions of the scan. *)
Definition increasing (log : list event) : Prop :=
  ∀ i j ev ev', (i < j)%nat → log !! i = Some ev → log !! j = Some ev' →
                row_major_lt (ev_pos ev) (ev_pos ev').

(** After an event that left the board impossible, every later event
    leaves it impossible too and lies further on in the same scan. *)
Definition no_restart (log : list event) : Prop :=
  ∀ i j ev ev', (i < j)%nat → log !! i = Some ev → log !! j = Some ev' →
                ev_possible ev = false →
                ev_possible ev' = false ∧
                row_major_lt (ev_pos ev) (ev_pos ev').

(** What one scan of [propagate] has established after the positions in
    [done], starting from [b]. *)
Definition scan_inv (b : SudokuState) (done : list (nat * nat))
    (st : SudokuState * list event) : Prop :=
  grid_ok st.1 ∧ replay b st.2 st.1 ∧
  (st.2 = [] → ∀ p q e, (p, q) ∈ done → cell b p q = Some e →
                        forced e = false) ∧
  (st.2 ≠ [] → impossible st.1) ∧
  Forall (λ ev, ev_possible ev = false ∧ ev_pos ev ∈ done) st.2 ∧
  increasing st.2.

(** The three ways in which one activation of [propagate] can end. *)
Definition scan_outcome
    (rec : SudokuState → result (SudokuState * list event))
    (b : SudokuState) (res : result (SudokuState * list event)) : Prop :=
  (no_forced b ∧ res = Ok (b, []))
  ∨ (∃ r c v b1, fixes r c v b b1 ∧ possible b1 ∧
       res = (x ← rec b1; Ok (x.1, mkEvent r c v true :: x.2)))
  ∨ (∃ b2 log, log ≠ [] ∧ replay b log b2 ∧ impossible b2 ∧
       Forall (λ ev, ev_possible ev = false) log ∧ increasing log ∧
       res = Ok (b2, log)).

(** Two loop results that agree up to relations on states and on returned
    values. *)
Definition flow_sim {S S' R R'} (RS : S → S' → Prop) (RR : R → R' → Prop)
    (r : result (flow S R)) (r' : result (flow S' R')) : Prop :=
  match r, r' with
  | Ok (Continue s), Ok (Continue s') => RS s s'
  | Ok (Return a), Ok (Return a') => RR a a'
  | Raise e, Raise e' => e = e'
  | _, _ => False
  end.

(** The cells still to be fixed before the board is full. *)
Definition unfixed_count (b : SudokuState) : nat :=
  (size * size - count_fixed b)%nat.

(** ** The sample puzzles of the module *)

(** [b = SudokuState()] followed by one [b.add_number(r, c, v)] per clue. *)
Definition clue (r c : nat) (v : Z) : nat * nat * Z := (r, c, v).
Definition setup (clues : list (nat * nat * Z)) : result SudokuState :=
  for_each clues (λ '(r, c, v) b, add_number r c v b) new_state.

Definition problem1 : result SudokuState :=
  setup [clue 0 1 7; clue 0 7 1; clue 1 2 9; clue 1 3 7; clue 1 5 4;
         clue 1 6 2; clue 2 2 8; clue 2 3 9; clue 2 6 3; clue 3 1 4;
         clue 3 2 3; clue 3 4 6; clue 4 1 9; clue 4 3 1; clue 4 5 8;
         clue 4 7 7; clue 5 4 2; clue 5 6 1; clue 5 7 5; clue 6 2 4;
         clue 6 5 5; clue 6 6 7; clue 7 2 7; clue 7 3 4; clue 7 5 1;
         clue 7 6 9; clue 8 1 3; clue 8 7 8].

(** The value of a result that is known to be [Ok]. *)
Definition get_ok (r : result SudokuState) : SudokuState :=
  match r with
  | Ok b => b
  | Raise _ => new_state
  end.

(** Nine clues after which row 0 cannot be completed: the cells (0,1) and
    (0,2) both have the one candidate 5, and (0,0) has the candidates 4
    and 5. *)
Definition clash_board : SudokuState :=
  get_ok (setup [clue 1 0 1; clue 1 1 2; clue 1 2 3; clue 3 1 4; clue 6 2 4;
                 clue 0 3 6; clue 0 4 7; clue 0 5 8; clue 0 6 9]).

(** Eleven clues after which (0,0), (0,1) and (0,2) all have the one
    candidate 5, and (0,7) and (0,8) the candidates 4 and 5. *)
Definition double_clash_board : SudokuState :=
  get_ok (setup [clue 1 0 1; clue 1 1 2; clue 1 2 3; clue 2 0 4;
                 clue 0 3 6; clue 0 4 7; clue 0 5 8; clue 0 6 9;
                 clue 2 6 1; clue 2 7 2; clue 2 8 3]).

(** ** Executable checks of the board predicates *)

Definition all_cells (P : SudokuEntry → bool) (b : SudokuState) : bool :=
  forallb (λ pos,
    match cell b pos.1 pos.2 with
    | Some e => P e
    | None => false
    end) positions.

Fixpoint subseqb (l k : list Z) : bool :=
  match l, k with
  | [], _ => true
  | _ :: _, [] => false
  | x :: l', y :: k' =>
      if bool_decide (x = y) then subseqb l' k' else subseqb l k'
  end.

Definition board_check (b : SudokuState) : bool :=
  all_cells (λ e,
    subseqb (domain e) [1; 2; 3; 4; 5; 6; 7; 8; 9] &&
    (negb (fixed e) || bool_decide (length (domain e) = 1%nat))) b &&
  bool_decide (num_placed b = Z.of_nat (count_fixed b)).

(** ** Vocabulary for [next_states] and [dfs] *)

(** [[f(x) for x in xs]], stopping at the first exception. *)
Fixpoint map_result {A B} (f : A → result B) (xs : list A)
  : result (list B) :=
  match xs with
  | [] => Ok []
  | x :: xs' => y ← f x; ys ← map_result f xs'; Ok (y :: ys)
  end.

(** One branch of [next_states]: the copy of [self] with [value] placed
    at [(row, col)] and propagated. *)
Definition candidate (depth : nat) (self : SudokuState) (row col : nat)
    (value : Z) : result SudokuState :=
  new_board ← add_number row col value (deepcopy self);
  propagate depth new_board.

(** The test that [next_states] applies to a candidate. *)
Definition is_possible (b : SudokuState) : bool :=
  match solution_is_possible b with
  | Ok ok => ok
  | Raise _ => false
  end.

(** What one iteration of the loop of [next_states] contributes. *)
Definition keep (depth : nat) (self : SudokuState) (row col : nat)
    (value : Z) : result (list SudokuState) :=
  new_board ← candidate depth self row col value;
  ok ← solution_is_possible new_board;
  Ok (if (ok : bool) then [new_board] else []).

(** [nb] is a successor of [b]: a candidate of an unfixed cell was placed,
    the forced cells recorded in [log] were fixed, and the result is
    possible. *)
Definition child (b nb : SudokuState) : Prop :=
  ∃ r c v b1 log, places r c v b b1 ∧ replay b1 log nb ∧ possible nb.

(** [g] is a goal state that [dfs] meets when started in [s]. *)
Inductive reaches {State} (goal : State → bool)
    (successors : State → result (list State)) : State → State → Prop :=
  | reaches_goal s : goal s = true → reaches goal successors s s
  | reaches_step s succs s' g :
      goal s = false → successors s = Ok succs → s' ∈ succs →
      reaches goal successors s' g → reaches goal successors s g.

(** ** Boards as objects

    The definitions above pass board values around.  In Python a board is
    an object whose rows hold references to entry objects; [fix] and
    [eliminate] update an entry object in place, and [copy.deepcopy]
    creates a new board object with new entry objects.  To say that
    [next_states] leaves the board it is called on alone, this part runs it
    on a heap of board objects and entry objects.

    A method called on a board reference reads the board value that the
    object denotes, runs the method on it, and writes the result back
    through the entry references of that object: two boards that shared
    an entry object would both see the change.  The heap survives an
    exception.  (When a method raises, the state in which it leaves its
    own object is not tracked; the heap keeps the state from before the
    call.) *)

Record board_obj : Type := mkObj {
  obj_num_placed : Z;
  obj_rows : list (list nat)   (* references to entry objects *)
}.

Record heap : Type := mkHeap {
  boards : gmap nat board_obj;
  cells : gmap nat SudokuEntry
}.

(** The board value that a board object denotes. *)
Definition view (h : heap) (ref : nat) : option SudokuState :=
  o ← boards h !! ref;
  rows ← mapM (mapM (λ r, cells h !! r)) (obj_rows o);
  Some {| num_placed := obj_num_placed o; board := rows |}.

(** The entry objects [refs] take the values [es]. *)
Definition write_cells (refs : list nat) (es : list SudokuEntry)
    (E : gmap nat SudokuEntry) : gmap nat SudokuEntry :=
  foldr (λ re E, <[re.1 := re.2]> E) E (zip refs es).

Definition write_rows (g : list (list nat)) (rows : list (list SudokuEntry))
    (E : gmap nat SudokuEntry) : gmap nat SudokuEntry :=
  foldr (λ p E, write_cells p.1 p.2 E) E (zip g rows).

(** New entry objects for the entries of [rows], row by row. *)
Fixpoint alloc_rows (rows : list (list SudokuEntry))
    (E : gmap nat SudokuEntry) : list (list nat) * gmap nat SudokuEntry :=
  match rows with
  | [] => ([], E)
  | es :: rows' =>
      let refs := fresh_list (length es) (dom E) in
      let '(g, E') := alloc_rows rows' (write_cells refs es E) in
      (refs :: g, E')
  end.

(** Sequencing of heap operations. *)
Definition heap_bind {A B} (m : heap → result A * heap)
    (f : A → heap → result B * heap) (h : heap) : result B * heap :=
  match m h with
  | (Ok a, h') => f a h'
  | (Raise e, h') => (Raise e, h')
  end.

(** [copy.deepcopy(obj)]: a new board object with new entry objects that
    hold the same values. *)
Definition deepcopy_obj (ref : nat) (h : heap) : result nat * heap :=
  match view h ref with
  | Some s =>
      let '(g, E) := alloc_rows (board s) (cells h) in
      let new := fresh (dom (boards h)) in
      (Ok new,
       {| boards := <[new := mkObj (num_placed s) g]> (boards h);
          cells := E |})
  | None => (Raise NameError, h)
  end.

(** [obj.method(...)] for a method that mutates [obj]. *)
Definition call (ref : nat) (method : SudokuState → result SudokuState)
    (h : heap) : result unit * heap :=
  match view h ref, boards h !! ref with
  | Some s, Some o =>
      match method s with
      | Ok s' =>
          (Ok tt,
           {| boards :=
                <[ref := mkObj (num_placed s') (obj_rows o)]> (boards h);
              cells := write_rows (obj_rows o) (board s') (cells h) |})
      | Raise e => (Raise e, h)
      end
  | _, _ => (Raise NameError, h)
  end.

(** [obj.method(...)] for a method that only reads [obj]. *)
Definition query {A} (ref : nat) (method : SudokuState → result A)
    (h : heap) : result A * heap :=
  match view h ref with
  | Some s => (method s, h)
  | None => (Raise NameError, h)
  end.

(** [for x in xs: body] on the heap. *)
Fixpoint heap_for {A S} (xs : list A)
    (body : A → S → heap → result S * heap) (s : S)
  : heap → result S * heap :=
  match xs with
  | [] => λ h, (Ok s, h)
  | x :: xs' => heap_bind (body x s) (heap_for xs' body)
  end.

(** [SudokuState.next_states] on the heap: [self] and the boards returned
    are references.  (The list that the loop runs over is read from [self]
    when the loop starts.) *)
Definition next_states_obj (depth : nat) (self : nat)
  : heap → result (list nat) * heap :=
  heap_bind (query self get_most_constrained_cell) (λ loc,
    match loc with
    | None => λ h, (Raise TypeError, h)
    | Some (row, col) =>
        heap_bind
          (query self (λ s, e ← get_entry s row col; Ok (values e)))
          (λ vals,
             heap_for vals (λ value next_state,
               heap_bind (deepcopy_obj self) (λ new_board,
               heap_bind (call new_board (add_number row col value)) (λ _,
               heap_bind (call new_board (propagate depth)) (λ _,
               heap_bind (query new_board solution_is_possible)
                 (λ (ok : bool) h,
                    (Ok (if ok then next_state ++ [new_board]
                         else next_state), h)))))) [])
    end).

(** The loop body of [next_states] on values, for comparison. *)
Definition next_states_step (depth : nat) (self : SudokuState)
    (row col : nat) (value : Z) (next_state : list SudokuState)
  : result (list SudokuState) :=
  new_board ← add_number row col value (deepcopy self);
  new_board ← propagate depth new_board;
  ok ← solution_is_possible new_board;
  if (ok : bool) then Ok (next_state ++ [new_board]) else Ok next_state.

(** Every object of [h] is in [h'] with the same fields. *)
Definition heap_incl (h h' : heap) : Prop :=
  boards h ⊆ boards h' ∧ cells h ⊆ cells h'.

(** The rows of references [g] hold the entries [rows]. *)
Definition rows_in (E : gmap nat SudokuEntry) (g : list (list nat))
    (rows : list (list SudokuEntry)) : Prop :=
  Forall2 (Forall2 (λ r e, E !! r = Some e)) g rows.

(** [ref] is a board object made after [h]: neither it nor any of its
    entry objects existed in [h], its entry objects are distinct, and in
    [h'] it denotes [nb]. *)
Definition new_board_obj (h h' : heap) (ref : nat) (nb : SudokuState)
  : Prop :=
  boards h !! ref = None ∧
  view h' ref = Some nb ∧
  ∃ o, boards h' !! ref = Some o ∧
       NoDup (mjoin (obj_rows o)) ∧
       ∀ r, r ∈ mjoin (obj_rows o) → cells h !! r = None.

(** The references in [refs] are distinct new board objects that denote
    the boards in [l]. *)
Definition denotes (h h' : heap) (refs : list nat)
    (l : list SudokuState) : Prop :=
  NoDup refs ∧ Forall2 (new_board_obj h h') refs l.

(** The board object [n] was made after [hc], and denotes [s] in [h1]. *)
Definition made_after (hc h1 : heap) (n : nat) (s : SudokuState) : Prop :=
  heap_incl hc h1 ∧ boards hc !! n = None ∧
  ∃ g, boards h1 !! n = Some (mkObj (num_placed s) g) ∧
       rows_in (cells h1) g (board s) ∧
       NoDup (mjoin g) ∧ ∀ r, r ∈ mjoin g → cells hc !! r = None.

(** What the rest of a scan of [propagate] does once the board is
    impossible: each cell that is forced when the scan reaches it is
    fixed, and the scan moves on to the next position. *)
Fixpoint sweep (ps : list (nat * nat)) (b : SudokuState)
  : result SudokuState :=
  match ps with
  | [] => Ok b
  | (ri, ci) :: ps' =>
      e ← get_entry b ri ci;
      if forced e then
        v ← index (values e) 0;
        b' ← add_number ri ci v b;
        sweep ps' b'
      else sweep ps' b
  end.

(** The board has exactly nine rows of nine cells, as the constructor
    builds it. *)
Definition shape_ok (b : SudokuState) : Prop :=
  length <$> board b = replicate size size.

(** A heap with one board object, at reference 0, that denotes [s]. *)
Definition heap_of (s : SudokuState) : heap :=
  let '(g, E) := alloc_rows (board s) ∅ in
  {| boards := {[ 0%nat := mkObj (num_placed s) g ]}; cells := E |}.

(** ** The remaining methods and the other sample puzzles *)




Definition heart_clues : list (nat * nat * Z) :=
  [clue 1 1 4; clue 1 2 3; clue 1 6 6; clue 1 7 7; clue 2 0 5; clue 2 3 4;
   clue 2 5 2; clue 2 8 8; clue 3 0 8; clue 3 4 6; clue 3 8 1; clue 4 0 2;
   clue 4 8 5; clue 5 1 5; clue 5 7 4; clue 6 2 6; clue 6 6 7; clue 7 3 5;
   clue 7 5 1; clue 8 4 8].

Definition heart : result SudokuState := setup heart_clues.

(** ** Vocabulary for valid grids *)










(** Executable checks of [valid] and [agrees]. *)
#[export] Instance peer_dec row col p q : Decision (peer row col p q).
Proof. unfold peer. apply _. Defined.



(** * Verification *)

(** ** Loops *)

Lemma bind_Ok {A B} (a : A) (f : A → result B) : Ok a ≫= f = f a.
Proof. done. Qed.

Lemma bind_Raise {A B} e (f : A → result B) : Raise e ≫= f = Raise e.
Proof. done. Qed.

(** Step over a call whose result is known. *)
Ltac ok_step := rewrite ?bind_Ok, ?bind_Raise; cbv beta match.

Lemma bind_Ok_inv {A B} (m : result A) (f : A → result B) b :
  m ≫= f = Ok b → ∃ a, m = Ok a ∧ f a = Ok b.
Proof. destruct m as [a|e]; cbn; [eauto | discriminate]. Qed.

Lemma for_each_app {A S} (xs ys : list A) (body : A → S → result S) s :
  for_each (xs ++ ys) body s = for_each xs body s ≫= for_each ys body.
Proof.
  revert s. induction xs as [|x xs IH]; intros s; cbn; [done|].
  destruct (body x s); cbn; auto.
Qed.

Lemma for_each_fmap {A B S} (f : A → B) xs (body : B → S → result S) s :
  for_each (f <$> xs) body s = for_each xs (λ x, body (f x)) s.
Proof.
  revert s. induction xs as [|x xs IH]; intros s; cbn; [done|].
  destruct (body (f x) s); cbn; auto.
Qed.

Lemma for_each_grid {A B S} (xs : list A) (ys : list B)
    (body : A → B → S → result S) s :
  for_each xs (λ x, for_each ys (body x)) s
  = for_each (grid xs ys) (λ p, body p.1 p.2) s.
Proof.
  revert s. induction xs as [|x xs IH]; intros s; [done|].
  change (grid (x :: xs) ys) with ((pair x <$> ys) ++ grid xs ys).
  rewrite for_each_app, for_each_fmap. cbn.
  destruct (for_each ys (body x) s); cbn; auto.
Qed.

Lemma for_loop_app {A S R} (xs ys : list A)
    (body : A → S → result (flow S R)) s :
  for_loop (xs ++ ys) body s
  = f ← for_loop xs body s;
    match f with
    | Continue s' => for_loop ys body s'
    | Return r => Ok (Return r)
    end.
Proof.
  revert s. induction xs as [|x xs IH]; intros s; cbn; [done|].
  destruct (body x s) as [[s'|r]|e]; cbn; auto.
Qed.

Lemma for_loop_fmap {A B S R} (f : A → B) xs
    (body : B → S → result (flow S R)) s :
  for_loop (f <$> xs) body s = for_loop xs (λ x, body (f x)) s.
Proof.
  revert s. induction xs as [|x xs IH]; intros s; cbn; [done|].
  destruct (body (f x) s) as [[s'|r]|e]; cbn; auto.
Qed.

Lemma for_loop_grid {A B S R} (xs : list A) (ys : list B)
    (body : A → B → S → result (flow S R)) s :
  for_loop xs (λ x, for_loop ys (body x)) s
  = for_loop (grid xs ys) (λ p, body p.1 p.2) s.
Proof.
  revert s. induction xs as [|x xs IH]; intros s; [done|].
  change (grid (x :: xs) ys) with ((pair x <$> ys) ++ grid xs ys).
  rewrite for_loop_app, for_loop_fmap. cbn.
  destruct (for_loop ys (body x) s) as [[s'|r]|e]; cbn; auto.
Qed.

(** Invariant rule for a loop that cannot return early. *)
Lemma for_each_inv {A S} (I : list A → S → Prop) (xs : list A)
    (body : A → S → result S) s0 :
  I [] s0 →
  (∀ done x rest s, xs = done ++ x :: rest → I done s →
     ∃ s', body x s = Ok s' ∧ I (done ++ [x]) s') →
  ∃ s', for_each xs body s0 = Ok s' ∧ I xs s'.
Proof.
  intros H0 Hstep.
  enough (∀ rest done s, xs = done ++ rest → I done s →
            ∃ s', for_each rest body s = Ok s' ∧ I xs s') as H
    by (apply (H xs [] s0); auto).
  induction rest as [|x rest IH]; intros done s Hxs HI.
  - rewrite app_nil_r in Hxs. subst. cbn. eauto.
  - destruct (Hstep done x rest s Hxs HI) as (s' & Hb & HI').
    cbn. rewrite Hb. cbn. apply (IH (done ++ [x])); [|done].
    by rewrite <- app_assoc.
Qed.

(** ** Positions *)

Ltac euclid9 n :=
  pose proof (Nat.div_mod_eq n 9);
  pose proof (Nat.mod_upper_bound n 9 ltac:(lia)).

Lemma positions_lookup m :
  positions !! m =
  if decide (m < size * size)%nat then Some (m / size, m mod size)%nat
  else None.
Proof.
  assert (positions = (λ m, (m / size, m mod size)%nat) <$> seq 0 (size * size))
    as -> by reflexivity.
  rewrite list_lookup_fmap. case_decide.
  - by rewrite lookup_seq_lt.
  - rewrite lookup_seq_ge; [done | lia].
Qed.

Lemma elem_of_positions p q :
  (p, q) ∈ positions ↔ (p < size ∧ q < size)%nat.
Proof.
  unfold positions, grid, range. rewrite list_elem_of_bind. split.
  - intros (x & Hq & Hx). apply list_elem_of_fmap in Hq as (y & [= -> ->] & Hy).
    apply elem_of_seq in Hx, Hy. lia.
  - intros [Hp Hq]. exists p. split.
    + apply list_elem_of_fmap. exists q. split; [done|]. apply elem_of_seq. lia.
    + apply elem_of_seq. lia.
Qed.

Lemma NoDup_positions : NoDup positions.
Proof.
  apply NoDup_alt. intros i j [p q] Hi Hj.
  rewrite positions_lookup in Hi, Hj. repeat case_decide; simplify_eq.
  unfold size in *.
  rewrite (Nat.div_mod_eq i 9), (Nat.div_mod_eq j 9). congruence.
Qed.

(** In a split of the scan, the positions already done are those before
    the current one. *)
Lemma positions_split done p q rest a b :
  positions = done ++ (p, q) :: rest →
  (a, b) ∈ done ↔ (a < size ∧ b < size)%nat ∧ row_major_lt (a, b) (p, q).
Proof.
  intros Hsplit.
  assert (positions !! length done = Some (p, q)) as Hpq.
  { rewrite Hsplit. by apply list_lookup_middle. }
  rewrite positions_lookup in Hpq. case_decide as Hlen; [|done].
  assert (p = length done / size ∧ q = length done mod size)%nat
    as [Hp Hq] by (split; congruence).
  clear Hpq.
  assert ((a, b) ∈ done ↔
          ∃ m, (m < length done)%nat ∧ positions !! m = Some (a, b)) as ->.
  { rewrite list_elem_of_lookup. split.
    - intros [m Hm]. exists m. split; [by eapply lookup_lt_Some|].
      rewrite Hsplit. by apply lookup_app_l_Some.
    - intros (m & Hlt & Hm). exists m.
      rewrite Hsplit, lookup_app_l in Hm; done. }
  unfold row_major_lt, size in *. cbn [fst snd]. split.
  - intros (m & Hlt & Hm). rewrite positions_lookup in Hm.
    case_decide; [|done].
    unfold size in *.
    assert (a = m / 9 ∧ b = m mod 9)%nat as [-> ->] by (split; congruence).
    euclid9 m. euclid9 (length done). lia.
  - intros [[Ha Hb] Hlt]. exists (a * 9 + b)%nat.
    euclid9 (a * 9 + b)%nat. euclid9 (length done).
    split; [lia|]. rewrite positions_lookup. unfold size.
    case_decide; [|lia]. f_equal. f_equal; lia.
Qed.

(** ** Cells *)

Lemma get_entry_cell b p q :
  get_entry b p q =
  match cell b p q with Some e => Ok e | None => Raise IndexError end.
Proof.
  unfold get_entry, cell, index. destruct (board b !! p) as [r|]; cbn; [|done].
  by destruct (r !! q).
Qed.

Lemma cell_set_entry b i j e p q :
  cell (set_entry b i j e) p q =
  if decide (p = i ∧ q = j) then (λ _, e) <$> cell b p q else cell b p q.
Proof.
  unfold cell, set_entry. cbn. rewrite list_lookup_alter.
  destruct (decide (i = p)) as [->|Hne].
  - destruct (board b !! p) as [r|]; cbn; [|by case_decide].
    rewrite list_lookup_insert. destruct (decide (q = j)) as [->|Hq].
    + rewrite (decide_True (P := p = p ∧ j = j)) by done.
      case_decide as Hj.
      * destruct (lookup_lt_is_Some_2 r j) as [x ->]; [lia | done].
      * rewrite lookup_ge_None_2; [done | lia].
    + rewrite (decide_False (P := p = p ∧ q = j)) by tauto.
      rewrite decide_False; [done | intros [? _]; congruence].
  - rewrite decide_False; [done | intros [? _]; congruence].
Qed.

Lemma grid_ok_cell b p q :
  grid_ok b → (p < size)%nat → (q < size)%nat → ∃ e, cell b p q = Some e.
Proof. intros Hb Hp Hq. destruct (Hb p q Hp Hq) as [e He]. eauto. Qed.

(** ** Eliminating one value *)

Lemma remove_strike n l : n ∈ l → remove n l = Ok (strike n l).
Proof.
  induction l as [|x l IH]; intros Hin; [by apply elem_of_nil in Hin|].
  cbn. case_bool_decide as Hx; [done|].
  apply elem_of_cons in Hin as [->|Hin]; [done|]. by rewrite IH.
Qed.

Lemma strike_notin n l : n ∉ l → strike n l = l.
Proof.
  induction l as [|x l IH]; intros Hin; [done|]. cbn.
  apply not_elem_of_cons in Hin as [Hne Hin].
  rewrite bool_decide_false by done. by rewrite IH.
Qed.

Lemma strike_sublist n l : strike n l `sublist_of` l.
Proof.
  induction l as [|x l IH]; cbn; [done|]. case_bool_decide.
  - by apply sublist_cons.
  - by apply sublist_skip.
Qed.

Lemma strike_NoDup n l : NoDup l → n ∉ strike n l.
Proof.
  induction 1 as [|x l Hx Hl IH]; cbn; [apply not_elem_of_nil|].
  case_bool_decide as Hn; [by subst|].
  apply not_elem_of_cons. split; [congruence | done].
Qed.

Lemma eliminate_unfixed n e :
  fixed e = false → eliminate n e = Ok (strike_entry n e).
Proof.
  destruct e as [f d]. cbn. intros ->. unfold eliminate, strike_entry, contains.
  cbn. case_bool_decide as Hin.
  - by rewrite remove_strike.
  - by rewrite strike_notin.
Qed.

Lemma strike_entry_fixed n e : fixed (strike_entry n e) = fixed e.
Proof. unfold strike_entry. by destruct (fixed e) eqn:E. Qed.

Lemma iter_strike_fixed k n e : fixed (Nat.iter k (strike_entry n) e) = fixed e.
Proof.
  induction k as [|k IH]; [done|].
  by rewrite Nat.iter_succ, strike_entry_fixed.
Qed.

Lemma iter_strike_of_fixed k n e :
  fixed e = true → Nat.iter k (strike_entry n) e = e.
Proof.
  intros He. induction k as [|k IH]; [done|].
  rewrite Nat.iter_succ, IH. unfold strike_entry. by rewrite He.
Qed.

Lemma iter_strike_sublist k n e :
  domain (Nat.iter k (strike_entry n) e) `sublist_of` domain e.
Proof.
  induction k as [|k IH]; [done|]. rewrite Nat.iter_succ.
  etrans; [|apply IH].
  unfold strike_entry. destruct (fixed _); [done|]. apply strike_sublist.
Qed.

(** Once the value is gone, further visits change nothing. *)
Lemma iter_strike_NoDup k n e :
  (0 < k)%nat → fixed e = false → NoDup (domain e) →
  Nat.iter k (strike_entry n) e
  = {| fixed := false; domain := strike n (domain e) |}.
Proof.
  intros Hk He Hnd. destruct k as [|k]; [lia|]. clear Hk.
  induction k as [|k IH].
  - cbn. unfold strike_entry. by rewrite He.
  - rewrite Nat.iter_succ, IH. unfold strike_entry at 1. cbn.
    by rewrite (strike_notin n (strike n _)) by by apply strike_NoDup.
Qed.

(** ** The [struck] relation *)

Lemma struck_refl n b : struck n (λ _ _, False) b b.
Proof.
  split; [done|]. intros p q. exists 0%nat. split; [|lia].
  cbn. by destruct (cell b p q).
Qed.

Lemma struck_trans n V1 V2 b1 b2 b3 :
  struck n V1 b1 b2 → struck n V2 b2 b3 →
  struck n (λ p q, V1 p q ∨ V2 p q) b1 b3.
Proof.
  intros [Hn1 H1] [Hn2 H2]. split; [congruence|]. intros p q.
  destruct (H1 p q) as (k1 & Hk1 & HV1), (H2 p q) as (k2 & Hk2 & HV2).
  exists (k2 + k1)%nat. split; [|rewrite <- HV1, <- HV2; lia].
  rewrite Hk2, Hk1. destruct (cell b1 p q); cbn; [|done].
  by rewrite Nat.iter_add.
Qed.

Lemma struck_iff n V V' b b' :
  (∀ p q, V p q ↔ V' p q) → struck n V b b' → struck n V' b b'.
Proof.
  intros HV [Hn H]. split; [done|]. intros p q.
  destruct (H p q) as (k & Hk & Hkv). exists k. by rewrite <- HV.
Qed.

Lemma struck_is_Some n V b b' p q :
  struck n V b b' → is_Some (cell b' p q) ↔ is_Some (cell b p q).
Proof.
  intros [_ H]. destruct (H p q) as (k & -> & _).
  by rewrite fmap_is_Some.
Qed.

Lemma struck_grid_ok n V b b' : struck n V b b' → grid_ok b → grid_ok b'.
Proof.
  intros Hs Hb p q Hp Hq. rewrite (struck_is_Some _ _ _ _ _ _ Hs). auto.
Qed.

Lemma remove_conflict_struck i j n b :
  is_Some (cell b i j) →
  ∃ b', remove_conflict i j n b = Ok b' ∧
        struck n (λ p q, p = i ∧ q = j) b b'.
Proof.
  intros [e He]. unfold remove_conflict. rewrite get_entry_cell, He. cbn.
  unfold is_fixed. destruct (fixed e) eqn:Hf; cbn.
  - exists b. split; [done|]. split; [done|]. intros p q.
    exists (if decide (p = i ∧ q = j) then 1 else 0)%nat.
    case_decide as Hpq; [|split; [by destruct (cell b p q) | lia]].
    destruct Hpq as [-> ->]. split; [|by split; [|lia]].
    rewrite He. cbn. unfold strike_entry. by rewrite Hf.
  - rewrite eliminate_unfixed by done. cbn. eexists. split; [done|].
    split; [done|]. intros p q. rewrite cell_set_entry.
    exists (if decide (p = i ∧ q = j) then 1 else 0)%nat.
    case_decide as Hpq; [|split; [by destruct (cell b p q) | lia]].
    destruct Hpq as [-> ->]. split; [|by split; [|lia]].
    by rewrite He.
Qed.

Lemma for_each_struck {A} n (hit : A → nat → nat → Prop) xs
    (body : A → SudokuState → result SudokuState) b :
  grid_ok b →
  (∀ x b, x ∈ xs → grid_ok b →
     ∃ b', body x b = Ok b' ∧ struck n (hit x) b b') →
  ∃ b', for_each xs body b = Ok b' ∧
        struck n (λ p q, ∃ x, x ∈ xs ∧ hit x p q) b b'.
Proof.
  revert b. induction xs as [|x xs IH]; intros b Hb Hbody.
  - exists b. split; [done|]. eapply struck_iff; [|apply struck_refl].
    intros p q. split; [done|]. intros (x & Hx & _). by apply elem_of_nil in Hx.
  - destruct (Hbody x b) as (b1 & Hb1 & Hs1); [left | done |].
    destruct (IH b1) as (b2 & Hb2 & Hs2).
    { by eapply struck_grid_ok. }
    { intros y b' Hy. apply Hbody. by right. }
    exists b2. cbn. rewrite Hb1. cbn. split; [done|].
    eapply struck_iff; [|eapply struck_trans; [apply Hs1 | apply Hs2]].
    intros p q. cbn. split.
    + intros [Hx|(y & Hy & Hhit)]; [exists x | exists y]; split; auto;
        [left | by right].
    + intros (y & Hy & Hhit). apply elem_of_cons in Hy as [->|Hy]; eauto.
Qed.

Lemma elem_of_range i n : i ∈ range n ↔ (i < n)%nat.
Proof. unfold range. rewrite elem_of_seq. lia. Qed.

Lemma remove_all_conflicts_struck row col n b :
  grid_ok b → (row < size)%nat → (col < size)%nat →
  ∃ b', remove_all_conflicts row col n b = Ok b' ∧
        struck n (peer row col) b b'.
Proof.
  intros Hb Hrow Hcol. unfold remove_all_conflicts.
  destruct (for_each_struck n (λ i p q, p = i ∧ q = col) (range size)
              (λ i, remove_conflict i col n) b Hb) as (b1 & -> & Hs1).
  { intros i b' Hi Hb'. apply remove_conflict_struck, Hb'; [|done].
    by apply elem_of_range. }
  pose proof (struck_grid_ok _ _ _ _ Hs1 Hb) as Hb1. ok_step.
  destruct (for_each_struck n (λ j p q, p = row ∧ q = j) (range size)
              (λ j, remove_conflict row j n) b1 Hb1) as (b2 & -> & Hs2).
  { intros j b' Hj Hb'. apply remove_conflict_struck, Hb'; [done|].
    by apply elem_of_range. }
  pose proof (struck_grid_ok _ _ _ _ Hs2 Hb1) as Hb2. ok_step.
  destruct (for_each_struck n
              (λ k p q, ∃ l, l ∈ range size ∧
                 (get_subgrid_number k l = get_subgrid_number row col ∧
                  p = k ∧ q = l))
              (range size)
              (λ k, for_each (range size) (λ l self,
                 if bool_decide
                      (get_subgrid_number k l = get_subgrid_number row col)
                 then remove_conflict k l n self else Ok self))
              b2 Hb2) as (b3 & -> & Hs3).
  { intros k b' Hk Hb'.
    apply (for_each_struck n
             (λ l p q, get_subgrid_number k l = get_subgrid_number row col ∧
                       p = k ∧ q = l)); [done|].
    intros l b'' Hl Hb''. case_bool_decide as Hsg.
    - destruct (remove_conflict_struck k l n b'') as (b3 & -> & Hs).
      { apply Hb''; by apply elem_of_range. }
      exists b3. split; [done|]. eapply struck_iff; [|apply Hs].
      intros p q. tauto.
    - exists b''. split; [done|]. eapply struck_iff; [|apply struck_refl].
      intros p q. tauto. }
  exists b3. split; [done|].
  eapply struck_iff;
    [|eapply struck_trans; [eapply struck_trans; [apply Hs1 | apply Hs2]
                           | apply Hs3]].
  intros p q. cbv beta. unfold peer. setoid_rewrite elem_of_range. split.
  - intros [[(i & Hi & -> & ->)|(j & Hj & -> & ->)]
           |(k & Hk & l & Hl & Hsg & -> & ->)]; tauto.
  - intros [[Hp Hq] [->|[->|Hsg]]].
    + left. left. eauto.
    + left. right. eauto.
    + right. exists p. split; [done|]. exists q. eauto.
Qed.

(** ** [add_number] *)

Lemma cell_counter n s p q :
  cell {| num_placed := n; board := board s |} p q = cell s p q.
Proof. done. Qed.

(** The effect of [add_number], cell by cell. *)
Lemma add_number_spec row col n b e :
  grid_ok b → (row < size)%nat → (col < size)%nat →
  cell b row col = Some e → n ∈ domain e →
  ∃ b', add_number row col n b = Ok b' ∧
        num_placed b' = num_placed b + 1 ∧
        cell b' row col = Some {| fixed := true; domain := [n] |} ∧
        ∀ p q, (p, q) ≠ (row, col) →
          ∃ k, cell b' p q = Nat.iter k (strike_entry n) <$> cell b p q ∧
               ((0 < k)%nat ↔ peer row col p q).
Proof.
  intros Hb Hrow Hcol He Hn. unfold add_number.
  rewrite get_entry_cell, He. ok_step.
  unfold fix_entry, contains. rewrite bool_decide_true by done. ok_step.
  set (e' := {| fixed := true; domain := [n] |}).
  set (b0 := {| num_placed := num_placed (set_entry b row col e') + 1;
                board := board (set_entry b row col e') |}).
  assert (∀ p q, cell b0 p q =
            if decide (p = row ∧ q = col) then Some e' else cell b p q)
    as Hb0.
  { intros p q. unfold b0. rewrite cell_counter, cell_set_entry.
    case_decide as Hpq; [|done]. destruct Hpq as [-> ->]. by rewrite He. }
  assert (grid_ok b0) as Hg0.
  { intros p q Hp Hq. rewrite Hb0. case_decide; [done | by apply Hb]. }
  destruct (remove_all_conflicts_struck row col n b0 Hg0 Hrow Hcol)
    as (b' & Hb' & Hnum & Hcells).
  exists b'. split; [done|]. split; [done|]. split.
  - destruct (Hcells row col) as (k & -> & _). rewrite Hb0.
    rewrite decide_True by done. cbn. by rewrite iter_strike_of_fixed.
  - intros p q Hpq. destruct (Hcells p q) as (k & Hk & HV).
    exists k. split; [|done]. rewrite Hk, Hb0.
    rewrite decide_False; [done|]. intros [-> ->]. done.
Qed.

(** Consequences for every cell of the board. *)
Lemma add_number_cells row col n b e b' :
  grid_ok b → (row < size)%nat → (col < size)%nat →
  cell b row col = Some e → n ∈ domain e →
  add_number row col n b = Ok b' →
  grid_ok b' ∧
  num_placed b' = num_placed b + 1 ∧
  cell b' row col = Some {| fixed := true; domain := [n] |} ∧
  ∀ p q e0, (p, q) ≠ (row, col) → cell b p q = Some e0 →
    ∃ e1, cell b' p q = Some e1 ∧ fixed e1 = fixed e0 ∧
          domain e1 `sublist_of` domain e0 ∧
          (fixed e0 = true → e1 = e0) ∧
          (¬ peer row col p q → e1 = e0) ∧
          (peer row col p q → fixed e0 = false → NoDup (domain e0) →
             domain e1 = strike n (domain e0)).
Proof.
  intros Hb Hrow Hcol He Hn Hadd.
  destruct (add_number_spec row col n b e Hb Hrow Hcol He Hn)
    as (b'' & Hadd' & Hnum & Hrc & Hothers).
  rewrite Hadd in Hadd'. injection Hadd' as <-.
  assert (∀ p q e0, (p, q) ≠ (row, col) → cell b p q = Some e0 →
    ∃ e1, cell b' p q = Some e1 ∧ fixed e1 = fixed e0 ∧
          domain e1 `sublist_of` domain e0 ∧
          (fixed e0 = true → e1 = e0) ∧
          (¬ peer row col p q → e1 = e0) ∧
          (peer row col p q → fixed e0 = false → NoDup (domain e0) →
             domain e1 = strike n (domain e0))) as Hcells.
  { intros p q e0 Hpq He0. destruct (Hothers p q Hpq) as (k & Hk & Hpeer).
    rewrite He0 in Hk. cbn in Hk. eexists. split; [exact Hk|].
    split; [apply iter_strike_fixed|].
    split; [apply iter_strike_sublist|].
    split; [apply iter_strike_of_fixed|]. split.
    - intros Hnp. destruct k as [|k]; [done|].
      exfalso. apply Hnp, Hpeer. lia.
    - intros Hp Hf Hnd. rewrite iter_strike_NoDup; [done| |done..].
      by apply Hpeer. }
  split; [|done].
  intros p q Hp Hq. destruct (decide ((p, q) = (row, col))) as [[= -> ->]|Hne].
  - by rewrite Hrc.
  - destruct (Hb p q Hp Hq) as [e0 He0].
    destruct (Hcells p q e0 Hne He0) as (e1 & -> & _). done.
Qed.

Lemma possible_impossible b : possible b → impossible b → False.
Proof.
  intros Hp (p & q & e & Hlt & Hlt' & He & Hd). exact (Hp p q e Hlt Hlt' He Hd).
Qed.

(** An empty domain stays empty when a number is added. *)
Lemma add_number_impossible row col n b e b' :
  grid_ok b → (row < size)%nat → (col < size)%nat →
  cell b row col = Some e → n ∈ domain e →
  add_number row col n b = Ok b' →
  impossible b → impossible b'.
Proof.
  intros Hb Hrow Hcol He Hn Hadd (p & q & e0 & Hp & Hq & He0 & Hd).
  destruct (add_number_cells row col n b e b')
    as (_ & _ & _ & Hcells); try done.
  destruct (Hcells p q e0) as (e1 & He1 & _ & Hsub & _); [|done|].
  { intros [= -> ->]. rewrite He in He0. injection He0 as ->.
    rewrite Hd in Hn. by apply elem_of_nil in Hn. }
  exists p, q, e1. repeat split; try done.
  rewrite Hd in Hsub. by apply sublist_nil_r.
Qed.

(** General rule for a loop with early return: [I] holds of the state
    while the loop continues; whatever ends the loop satisfies [P]. *)
Lemma for_loop_post {A S R} (I : list A → S → Prop)
    (P : result (flow S R) → Prop)
    (xs : list A) (body : A → S → result (flow S R)) s0 :
  I [] s0 →
  (∀ done x rest s, xs = done ++ x :: rest → I done s →
     match body x s with
     | Ok (Continue s') => I (done ++ [x]) s'
     | r => P r
     end) →
  (∀ s, I xs s → P (Ok (Continue s))) →
  P (for_loop xs body s0).
Proof.
  intros H0 Hstep Hend.
  enough (∀ rest done s, xs = done ++ rest → I done s →
            P (for_loop rest body s)) as H
    by (apply (H xs [] s0); auto).
  induction rest as [|x rest IH]; intros done s Hxs HI.
  - rewrite app_nil_r in Hxs. subst. cbn. auto.
  - specialize (Hstep done x rest s Hxs HI). cbn.
    destruct (body x s) as [[s'|r]|e]; cbn; [|done..].
    apply (IH (done ++ [x])); [|done]. by rewrite <- app_assoc.
Qed.

(** ** [solution_is_possible] *)

Lemma solution_is_possible_spec b :
  grid_ok b →
  ∃ ok, solution_is_possible b = Ok ok ∧
        (ok = true → possible b) ∧ (ok = false → impossible b).
Proof.
  intros Hb. unfold solution_is_possible.
  rewrite (for_loop_grid (range size) (range size)
             (λ row col (_ : unit), e ← get_entry b row col;
                if has_conflict e then Ok (Return false)
                else Ok (Continue tt))).
  fold positions.
  apply (for_loop_post
    (λ done (_ : unit), ∀ p q e, (p, q) ∈ done →
       cell b p q = Some e → domain e ≠ [])
    (λ r, ∃ ok, (f ← r; match f with
                        | Return r => Ok r
                        | Continue _ => Ok true
                        end) = Ok ok ∧
                (ok = true → possible b) ∧ (ok = false → impossible b))).
  - intros p q e Hin. by apply elem_of_nil in Hin.
  - intros done [p q] rest [] Hsplit HI. cbn [fst snd].
    assert ((p, q) ∈ positions) as Hpq.
    { rewrite Hsplit. apply elem_of_app. right. left. }
    apply elem_of_positions in Hpq as [Hp Hq].
    destruct (grid_ok_cell b p q Hb Hp Hq) as [e He].
    rewrite get_entry_cell, He. ok_step. unfold has_conflict.
    case_bool_decide as Hlen.
    + exists false. split; [done|]. split; [done|]. intros _.
      exists p, q, e. repeat split; try done.
      by apply length_zero_iff_nil.
    + intros p' q' e' Hin He'. apply elem_of_app in Hin as [Hin|Hin]; [eauto|].
      apply list_elem_of_singleton in Hin as [= -> ->].
      rewrite He in He'. injection He' as <-.
      intros Hd. by rewrite Hd in Hlen.
  - intros [] HI. exists true. split; [done|]. split; [|done].
    intros _ p q e Hp Hq. apply HI. by apply elem_of_positions.
Qed.

Lemma solution_is_possible_true b :
  grid_ok b → possible b → solution_is_possible b = Ok true.
Proof.
  intros Hb Hp. destruct (solution_is_possible_spec b Hb) as ([] & ? & _ & Hi);
    [done|]. destruct (possible_impossible b Hp (Hi eq_refl)).
Qed.

Lemma solution_is_possible_false b :
  grid_ok b → impossible b → solution_is_possible b = Ok false.
Proof.
  intros Hb Hi. destruct (solution_is_possible_spec b Hb) as ([] & ? & Hp & _);
    [|done]. destruct (possible_impossible b (Hp eq_refl) Hi).
Qed.

(** ** [get_most_constrained_cell] *)

Lemma get_most_constrained_cell_scan b :
  grid_ok b →
  ∃ acc, get_most_constrained_cell b = Ok acc.2 ∧ mcc_inv b positions acc.
Proof.
  intros Hb. unfold get_most_constrained_cell.
  rewrite (for_each_grid (range size) (range size)
    (λ row col (acc : nat * option (nat * nat)),
       let '(dom, location) := acc in
       e ← get_entry b row col;
       if negb (is_fixed e) && bool_decide (width e ≤ dom)%nat
       then Ok (width e, Some (row, col))
       else Ok (dom, location))).
  fold positions.
  destruct (for_each_inv (mcc_inv b) positions
    (λ p (acc : nat * option (nat * nat)),
       let '(dom, location) := acc in
       e ← get_entry b p.1 p.2;
       if negb (is_fixed e) && bool_decide (width e ≤ dom)%nat
       then Ok (width e, Some (p.1, p.2))
       else Ok (dom, location)) (size, None)) as (acc & Hacc & HI).
  - split; [done|]. split; [done|].
    intros p q e Hin. by apply elem_of_nil in Hin.
  - intros done [p q] rest [dom loc] Hsplit [Hdom HI]. cbn [fst snd] in *.
    assert ((p, q) ∈ positions) as Hpq.
    { rewrite Hsplit. apply elem_of_app. right. left. }
    apply elem_of_positions in Hpq as [Hp Hq].
    destruct (grid_ok_cell b p q Hb Hp Hq) as [e He].
    rewrite get_entry_cell, He. ok_step. unfold is_fixed.
    destruct (fixed e) eqn:Hf; cbn [negb andb].
    { (* a fixed cell is skipped *)
      eexists. split; [done|]. split; [done|]. cbn [fst snd].
      destruct loc as [[i j]|].
      - destruct HI as (Hij & Hex & Hall). split; [|split; [done|]].
        { apply elem_of_app. by left. }
        intros p' q' e' Hin He' Hf'. apply elem_of_app in Hin as [Hin|Hin];
          [eauto|]. apply list_elem_of_singleton in Hin as [= -> ->].
        congruence.
      - destruct HI as [Hsz HI]. split; [done|].
        intros p' q' e' Hin He' Hf'. apply elem_of_app in Hin as [Hin|Hin];
          [eauto|]. apply list_elem_of_singleton in Hin as [= -> ->].
        congruence. }
    case_bool_decide as Hw.
    + (* the cell becomes the new best *)
      eexists. split; [done|]. split; [cbn; lia|]. cbn [fst snd].
      split; [apply elem_of_app; right; left|]. split; [eauto|].
      intros p' q' e' Hin He' Hf'. apply elem_of_app in Hin as [Hin|Hin].
      * assert (row_major_lt (p', q') (p, q)) as Hlt
          by (by eapply positions_split).
        destruct loc as [[i j]|].
        -- destruct HI as (_ & _ & Hall).
           destruct (Hall p' q' e' Hin He' Hf') as [Hle _].
           split; [lia | auto].
        -- destruct HI as [Hsz HI].
           specialize (HI p' q' e' Hin He' Hf'). split; [lia | auto].
      * apply list_elem_of_singleton in Hin as [= -> ->].
        rewrite He in He'. injection He' as <-. auto.
    + (* the cell is wider than the best so far *)
      eexists. split; [done|]. split; [done|]. cbn [fst snd].
      destruct loc as [[i j]|].
      * destruct HI as (Hij & Hex & Hall). split; [|split; [done|]].
        { apply elem_of_app. by left. }
        intros p' q' e' Hin He' Hf'. apply elem_of_app in Hin as [Hin|Hin];
          [eauto|]. apply list_elem_of_singleton in Hin as [= -> ->].
        rewrite He in He'. injection He' as <-. split; [lia | intros ?; lia].
      * destruct HI as [Hsz HI]. split; [done|].
        intros p' q' e' Hin He' Hf'. apply elem_of_app in Hin as [Hin|Hin];
          [eauto|]. apply list_elem_of_singleton in Hin as [= -> ->].
        rewrite He in He'. injection He' as <-. lia.
  - exists acc. rewrite Hacc. done.
Qed.

(** ** Fixing a forced cell *)

Lemma forced_spec e :
  forced e = true ↔ fixed e = false ∧ ∃ v, domain e = [v].
Proof.
  unfold forced, is_fixed, width. destruct e as [f d]. cbn. split.
  - intros H. apply andb_true_iff in H as [Hf Hw].
    apply negb_true_iff in Hf. split; [done|].
    apply bool_decide_eq_true in Hw. destruct d as [|v [|? ?]]; try done.
    eauto.
  - intros [-> [v ->]]. done.
Qed.

Lemma places_cells r c v b b1 :
  grid_ok b → places r c v b b1 →
  grid_ok b1 ∧
  num_placed b1 = num_placed b + 1 ∧
  cell b1 r c = Some {| fixed := true; domain := [v] |} ∧
  ∀ p q e0, (p, q) ≠ (r, c) → cell b p q = Some e0 →
    ∃ e1, cell b1 p q = Some e1 ∧ fixed e1 = fixed e0 ∧
          domain e1 `sublist_of` domain e0 ∧
          (fixed e0 = true → e1 = e0).
Proof.
  intros Hb (Hr & Hc & (e & He & Hf & Hd) & Hadd).
  destruct (add_number_cells r c v b e b1) as (Hg & Hn & Hrc & Hcells);
    try done.
  repeat split; try done.
  intros p q e0 Hpq He0.
  destruct (Hcells p q e0 Hpq He0) as (e1 & ? & ? & ? & ? & _). eauto.
Qed.

Lemma places_grid_ok r c v b b1 : grid_ok b → places r c v b b1 → grid_ok b1.
Proof. intros Hb Hf. by destruct (places_cells r c v b b1 Hb Hf). Qed.

Lemma places_impossible r c v b b1 :
  grid_ok b → places r c v b b1 → impossible b → impossible b1.
Proof.
  intros Hb (Hr & Hc & (e & He & Hf & Hv) & Hadd).
  exact (add_number_impossible r c v b e b1 Hb Hr Hc He Hv Hadd).
Qed.

Lemma fixes_places r c v b b1 : fixes r c v b b1 → places r c v b b1.
Proof.
  intros (Hr & Hc & (e & He & Hf & Hd) & Hadd). repeat split; try done.
  exists e. repeat split; try done. rewrite Hd. left.
Qed.


Lemma fixes_grid_ok r c v b b1 : grid_ok b → fixes r c v b b1 → grid_ok b1.
Proof. intros Hb Hf. by eapply places_grid_ok, fixes_places. Qed.

Lemma fixes_impossible r c v b b1 :
  grid_ok b → fixes r c v b b1 → impossible b → impossible b1.
Proof. intros Hb Hf. by eapply places_impossible, fixes_places. Qed.

Lemma replay_snoc b log b1 ev b2 :
  replay b log b1 → ev_fixes ev b1 b2 → replay b (log ++ [ev]) b2.
Proof.
  induction 1 as [b|b ev0 b0 log b1 Hev Hrep IH]; intros Hlast; cbn.
  - econstructor; [done | constructor].
  - econstructor; [done | auto].
Qed.

Lemma replay_nil_inv b b' : replay b [] b' → b' = b.
Proof. by inversion 1. Qed.

(** A property kept by every single fix is kept by a replay. *)
Lemma replay_preserves (P : SudokuState → Prop) b log b' :
  (∀ r c v b b1, grid_ok b → P b → fixes r c v b b1 → P b1) →
  grid_ok b → P b → replay b log b' → grid_ok b' ∧ P b'.
Proof.
  intros HP Hg Hb Hrep. induction Hrep as [b|b ev b1 log b2 [Hev _] Hrep IH];
    [done|].
  apply IH; [by eapply fixes_grid_ok | by eapply HP].
Qed.

Lemma replay_grid_ok b log b' : grid_ok b → replay b log b' → grid_ok b'.
Proof.
  intros Hg Hrep.
  by destruct (replay_preserves (λ _, True) b log b' ltac:(done) Hg I Hrep).
Qed.

(** ** One activation of [propagate] *)

Lemma propagate_log_body_flat rec b :
  propagate_log_body rec b =
  f ← for_loop positions (λ pos (st : SudokuState * list event),
        let '(self, log) := st in
        e ← get_entry self pos.1 pos.2;
        if negb (is_fixed e) && bool_decide (width e = 1%nat) then
          v ← index (values e) 0;
          self ← add_number pos.1 pos.2 v self;
          ok ← solution_is_possible self;
          let log := log ++ [mkEvent pos.1 pos.2 v ok] in
          if (ok : bool) then
            r ← rec self;
            Ok (Return (r.1, log ++ r.2))
          else Ok (Continue (self, log))
        else Ok (Continue (self, log))) (b, []);
  match f with
  | Return r => Ok r
  | Continue r => Ok r
  end.
Proof.
  unfold propagate_log_body.
  by rewrite (for_loop_grid (range size) (range size)
    (λ ri ci (st : SudokuState * list event),
      let '(self, log) := st in
      e ← get_entry self ri ci;
      if negb (is_fixed e) && bool_decide (width e = 1%nat) then
        v ← index (values e) 0;
        self ← add_number ri ci v self;
        ok ← solution_is_possible self;
        let log := log ++ [mkEvent ri ci v ok] in
        if (ok : bool) then
          r ← rec self;
          Ok (Return (r.1, log ++ r.2))
        else Ok (Continue (self, log))
      else Ok (Continue (self, log)))).
Qed.

Lemma scan_inv_skip b done pos st :
  scan_inv b done st →
  (st.2 = [] → ∀ e, cell b pos.1 pos.2 = Some e → forced e = false) →
  scan_inv b (done ++ [pos]) st.
Proof.
  intros (Hg & Hrep & Hnil & Himp & Hall & Hinc) Hpos.
  repeat split; try done.
  - intros Hlog p q e Hin He. apply elem_of_app in Hin as [Hin|Hin]; [eauto|].
    apply list_elem_of_singleton in Hin as <-. by apply Hpos.
  - eapply Forall_impl; [exact Hall|]. intros ev [? ?]. split; [done|].
    apply elem_of_app. by left.
Qed.

Lemma propagate_log_body_cases rec b :
  grid_ok b → scan_outcome rec b (propagate_log_body rec b).
Proof.
  intros Hb. rewrite propagate_log_body_flat.
  apply (for_loop_post (scan_inv b)
    (λ res, scan_outcome rec b
       (f ← res; match f with Return r => Ok r | Continue r => Ok r end))).
  - (* before the scan *)
    repeat split; try done; try constructor.
    intros _ p q e Hin. by apply elem_of_nil in Hin.
  - (* one position *)
    intros done [p q] rest [b' log] Hsplit HI. cbn [fst snd].
    pose proof HI as (Hg & Hrep & Hnil & Himp & Hall & Hinc).
    cbn [fst snd] in *.
    assert ((p, q) ∈ positions) as Hpq.
    { rewrite Hsplit. apply elem_of_app. right. left. }
    apply elem_of_positions in Hpq as [Hp Hq].
    destruct (grid_ok_cell b' p q Hg Hp Hq) as [e He].
    rewrite get_entry_cell, He. ok_step. fold (forced e).
    destruct (forced e) eqn:Hforced.
    2:{ apply (scan_inv_skip b done (p, q) (b', log) HI). cbn [fst snd].
        intros -> e0 He0. apply replay_nil_inv in Hrep as ->. congruence. }
    apply forced_spec in Hforced as [Hfix [v Hdom]].
    unfold values, index. rewrite Hdom. cbn [lookup list_lookup]. ok_step.
    destruct (add_number_spec p q v b' e Hg Hp Hq He) as (b1 & Hadd & _).
    { rewrite Hdom. left. }
    rewrite Hadd. ok_step.
    assert (fixes p q v b' b1) as Hfixes.
    { repeat split; try done. eauto. }
    pose proof (fixes_grid_ok _ _ _ _ _ Hg Hfixes) as Hg1.
    destruct (solution_is_possible_spec b1 Hg1) as (ok & Hok & Htrue & Hfalse).
    rewrite Hok. ok_step. destruct ok.
    + (* still possible: recursive call and return *)
      destruct log as [|ev0 log].
      2:{ exfalso. apply (possible_impossible b1); [auto|].
          eapply fixes_impossible; [exact Hg | exact Hfixes | by apply Himp]. }
      apply replay_nil_inv in Hrep as ->.
      assert (scan_outcome rec b
                (x ← rec b1; Ok (x.1, mkEvent p q v true :: x.2))) as Hout.
      { right. left. exists p, q, v, b1. auto. }
      destruct (rec b1) as [[s l]|err]; exact Hout.
    + (* impossible: the scan goes on *)
      repeat split; cbn [fst snd]; try done.
      * eapply replay_snoc; [done|]. by split.
      * by destruct log.
      * intros _. auto.
      * apply Forall_app. split.
        -- eapply Forall_impl; [exact Hall|]. intros ev [? ?]. split; [done|].
           apply elem_of_app. by left.
        -- constructor; [|constructor]. split; [done|].
           apply elem_of_app. right. left.
      * intros i j ev ev' Hij Hi Hj.
        assert (log !! i = Some ev) as Hi'.
        { apply lookup_lt_Some in Hj. rewrite length_app in Hj. cbn in Hj.
          rewrite lookup_app_l in Hi by lia. done. }
        rewrite Forall_forall in Hall.
        destruct (Hall ev) as [_ Hdone]; [by eapply list_elem_of_lookup_2|].
        destruct (decide (j < length log)%nat) as [Hlt|Hge].
        -- rewrite lookup_app_l in Hj by done. eauto.
        -- apply lookup_lt_Some in Hi'.
           rewrite lookup_app_r in Hj by lia.
           apply list_lookup_singleton_Some in Hj as [_ <-].
           destruct ev as [a c w o]. eapply positions_split; done.
  - (* the scan completes *)
    intros [b2 log] (Hg & Hrep & Hnil & Himp & Hall & Hinc).
    cbn [fst snd] in *. ok_step. destruct log as [|ev log].
    + apply replay_nil_inv in Hrep as ->. left. split; [|done].
      intros p q e Hp Hq. apply Hnil; [done|]. by apply elem_of_positions.
    + right. right. exists b2, (ev :: log). repeat split; try done.
      * by apply Himp.
      * eapply Forall_impl; [exact Hall|]. by intros ev' [? ?].
Qed.

(** ** Counting fixed cells *)

Lemma count_agree {A} (f g : A → bool) (l : list A) :
  (∀ y, y ∈ l → g y = f y) →
  length (filter (λ y, g y = true) l) = length (filter (λ y, f y = true) l).
Proof.
  induction l as [|y l IH]; intros Hagree; [done|].
  assert (length (filter (λ y, g y = true) l)
          = length (filter (λ y, f y = true) l)) as IH'
    by (apply IH; intros z Hz; apply Hagree; by right).
  rewrite !filter_cons. rewrite (Hagree y) by left.
  destruct (decide (f y = true)); cbn; by rewrite IH'.
Qed.

Lemma count_flip {A} (f g : A → bool) (l : list A) x :
  NoDup l → x ∈ l → f x = false → g x = true →
  (∀ y, y ∈ l → y ≠ x → g y = f y) →
  length (filter (λ y, g y = true) l)
  = S (length (filter (λ y, f y = true) l)).
Proof.
  intros Hnd. induction Hnd as [|y l Hy Hnd IH]; intros Hx Hfx Hgx Hagree.
  { by apply elem_of_nil in Hx. }
  rewrite !filter_cons. apply elem_of_cons in Hx as [->|Hx].
  - rewrite decide_True by done. rewrite decide_False by congruence. cbn.
    f_equal. apply count_agree. intros z Hz. apply Hagree; [by right|].
    by intros ->.
  - assert (length (filter (λ y, g y = true) l)
            = S (length (filter (λ y, f y = true) l))) as IH'.
    { apply IH; try done. intros z Hz Hne. apply Hagree; [by right | done]. }
    rewrite (Hagree y); [|left|by intros ->].
    destruct (decide (f y = true)); cbn; by rewrite IH'.
Qed.

Lemma count_fixed_bound b : (count_fixed b ≤ size * size)%nat.
Proof. unfold count_fixed. etrans; [apply length_filter|]. done. Qed.

Lemma places_count_fixed r c v b b1 :
  grid_ok b → places r c v b b1 → count_fixed b1 = S (count_fixed b).
Proof.
  intros Hb Hfixes.
  destruct (places_cells r c v b b1 Hb Hfixes) as (Hg1 & _ & Hrc & Hcells).
  destruct Hfixes as (Hr & Hc & (e & He & Hf & Hd) & Hadd).
  unfold count_fixed.
  apply (count_flip (cell_fixed b) (cell_fixed b1) positions (r, c)).
  - apply NoDup_positions.
  - by apply elem_of_positions.
  - unfold cell_fixed. cbn. by rewrite He.
  - unfold cell_fixed. cbn. by rewrite Hrc.
  - intros [p q] Hin Hne. apply elem_of_positions in Hin as [Hp Hq].
    destruct (grid_ok_cell b p q Hb Hp Hq) as [e0 He0].
    destruct (Hcells p q e0 Hne He0) as (e1 & He1 & Hfix & _).
    unfold cell_fixed. cbn. by rewrite He0, He1.
Qed.

(** ** Invariants kept by placing a candidate *)

Lemma places_board_inv r c v b b1 :
  board_inv b → places r c v b b1 → board_inv b1.
Proof.
  intros (Hg & Hcount & Hfixed) Hfixes.
  destruct (places_cells r c v b b1 Hg Hfixes) as (Hg1 & Hnum & Hrc & Hcells).
  split; [done|]. split.
  - unfold counter_ok in *.
    rewrite Hnum, (places_count_fixed r c v b b1 Hg Hfixes), Hcount. lia.
  - intros p q e1 Hp Hq He1 Hf1.
    destruct (decide ((p, q) = (r, c))) as [[= -> ->]|Hne].
    + rewrite Hrc in He1. by injection He1 as <-.
    + destruct (grid_ok_cell b p q Hg Hp Hq) as [e0 He0].
      destruct (Hcells p q e0 Hne He0) as (e1' & He1' & Hfix & _ & Hsame).
      rewrite He1 in He1'. injection He1' as <-.
      assert (fixed e0 = true) as Hf0 by (rewrite <- Hfix; exact Hf1).
      rewrite (Hsame Hf0). exact (Hfixed p q e0 Hp Hq He0 Hf0).
Qed.

Lemma domain_ok_singleton v d : domain_ok d → v ∈ d → domain_ok [v].
Proof.
  intros Hd Hv. unfold domain_ok in *. etrans; [|exact Hd].
  by apply singleton_sublist_l.
Qed.

Lemma places_domains_ok r c v b b1 :
  grid_ok b → domains_ok b → places r c v b b1 → domains_ok b1.
Proof.
  intros Hg Hdom Hfixes.
  destruct (places_cells r c v b b1 Hg Hfixes) as (Hg1 & Hnum & Hrc & Hcells).
  destruct Hfixes as (Hr & Hc & (e & He & Hf & Hd) & Hadd).
  intros p q e1 Hp Hq He1.
  destruct (decide ((p, q) = (r, c))) as [[= -> ->]|Hne].
  - rewrite Hrc in He1. injection He1 as <-. cbn.
    apply (domain_ok_singleton v (domain e)); [|exact Hd].
    exact (Hdom r c e Hr Hc He).
  - destruct (grid_ok_cell b p q Hg Hp Hq) as [e0 He0].
    destruct (Hcells p q e0 Hne He0) as (e1' & He1' & _ & Hsub & _).
    rewrite He1 in He1'. injection He1' as <-.
    unfold domain_ok. etrans; [exact Hsub|]. exact (Hdom p q e0 Hp Hq He0).
Qed.

Lemma fixes_count_fixed r c v b b1 :
  grid_ok b → fixes r c v b b1 → count_fixed b1 = S (count_fixed b).
Proof. intros Hb Hf. by eapply places_count_fixed, fixes_places. Qed.

Lemma fixes_board_inv r c v b b1 :
  board_inv b → fixes r c v b b1 → board_inv b1.
Proof. intros Hb Hf. by eapply places_board_inv, fixes_places. Qed.

Lemma fixes_domains_ok r c v b b1 :
  grid_ok b → domains_ok b → fixes r c v b b1 → domains_ok b1.
Proof. intros Hb Hd Hf. by eapply places_domains_ok, fixes_places. Qed.

Lemma replay_board_inv b log b' :
  board_inv b → replay b log b' → board_inv b'.
Proof.
  intros Hinv Hrep.
  apply (replay_preserves board_inv b log b'); try done; [|apply Hinv].
  intros r c v b0 b1 _. apply fixes_board_inv.
Qed.

Lemma replay_domains_ok b log b' :
  grid_ok b → domains_ok b → replay b log b' → domains_ok b'.
Proof.
  intros Hg Hdom Hrep.
  apply (replay_preserves domains_ok b log b'); try done.
  intros r c v b0 b1. apply fixes_domains_ok.
Qed.

Lemma replay_count_fixed b log b' :
  grid_ok b → replay b log b' →
  count_fixed b' = (count_fixed b + length log)%nat.
Proof.
  intros Hg Hrep. induction Hrep as [b|b ev b1 log b2 [Hev _] Hrep IH];
    [cbn [length]; lia|].
  rewrite IH by by eapply fixes_grid_ok.
  rewrite (fixes_count_fixed _ _ _ _ _ Hg Hev). cbn [length]. lia.
Qed.

(** ** Comparing two loops *)

Lemma for_loop_sim {A S S' R R'} (RS : S → S' → Prop) (RR : R → R' → Prop)
    (xs : list A) (body : A → S → result (flow S R))
    (body' : A → S' → result (flow S' R')) :
  (∀ x s s', RS s s' → flow_sim RS RR (body x s) (body' x s')) →
  ∀ s s', RS s s' →
    flow_sim RS RR (for_loop xs body s) (for_loop xs body' s').
Proof.
  intros Hbody. induction xs as [|x xs IH]; intros s s' Hs; [done|].
  cbn. specialize (Hbody x s s' Hs). unfold flow_sim in Hbody.
  destruct (body x s) as [[s1|r]|e], (body' x s') as [[s1'|r']|e'];
    cbn; try done. by apply IH.
Qed.

Lemma for_loop_mono {A S R} (xs : list A)
    (body body' : A → S → result (flow S R)) :
  (∀ x s f, body x s = Ok f → body' x s = Ok f) →
  ∀ s f, for_loop xs body s = Ok f → for_loop xs body' s = Ok f.
Proof.
  intros Hbody. induction xs as [|x xs IH]; intros s f Hf; [done|].
  cbn in *. apply bind_Ok_inv in Hf as (f0 & Hf0 & Hrest).
  rewrite (Hbody x s f0 Hf0). cbn. destruct f0; auto.
Qed.

(** ** [propagate] and [propagate_log] compute the same board *)

Lemma propagate_body_erase rec rec_log b :
  (∀ s, rec s = drop_log (rec_log s)) →
  propagate_body rec b = drop_log (propagate_log_body rec_log b).
Proof.
  intros Hrec. unfold propagate_body, propagate_log_body.
  match goal with
  | |- (?l ≫= _) = drop_log (?l' ≫= _) =>
      assert (flow_sim (λ s (st : SudokuState * list event), s = st.1)
                       (λ s (st : SudokuState * list event), s = st.1) l l')
        as Hsim
  end.
  { apply for_loop_sim; [|done]. intros ri s st ->.
    apply for_loop_sim; [|done]. clear st. intros ci s [s' log] ->.
    cbn [fst]. destruct (get_entry s' ri ci) as [e|err]; [|done]. ok_step.
    destruct (negb (is_fixed e) && bool_decide (width e = 1%nat)); [|done].
    destruct (index (values e) 0) as [v|err]; [|done]. ok_step.
    destruct (add_number ri ci v s') as [s1|err]; [|done]. ok_step.
    destruct (solution_is_possible s1) as [[]|err]; [| |done]; ok_step;
      [|done].
    rewrite Hrec. by destruct (rec_log s1) as [[s2 l2]|err]. }
  unfold flow_sim in Hsim.
  repeat match type of Hsim with
         | context [match ?r with _ => _ end] => destruct r
         end; cbn; try done; by subst.
Qed.

Lemma propagate_erase depth b :
  propagate depth b = drop_log (propagate_log depth b).
Proof.
  revert b. induction depth as [|depth IH]; intros b; [done|].
  cbn [propagate propagate_log]. by apply propagate_body_erase.
Qed.

(** ** Enough depth *)

Lemma propagate_log_body_mono rec rec' b r :
  (∀ s x, rec s = Ok x → rec' s = Ok x) →
  propagate_log_body rec b = Ok r → propagate_log_body rec' b = Ok r.
Proof.
  intros Hrec. unfold propagate_log_body. intros Hr.
  apply bind_Ok_inv in Hr as (f & Hf & Hr).
  erewrite for_loop_mono; [exact Hr | | exact Hf].
  clear Hf Hr f. intros ri s f. apply for_loop_mono. clear s f.
  intros ci [s log] f.
  destruct (get_entry s ri ci) as [e|err]; [|done]. ok_step.
  destruct (negb (is_fixed e) && bool_decide (width e = 1%nat)); [|done].
  destruct (index (values e) 0) as [v|err]; [|done]. ok_step.
  destruct (add_number ri ci v s) as [s1|err]; [|done]. ok_step.
  destruct (solution_is_possible s1) as [[]|err]; [| |done]; ok_step; [|done].
  destruct (rec s1) as [x|err] eqn:Hx; [|done].
  by rewrite (Hrec s1 x Hx).
Qed.

Lemma propagate_log_mono d d' b r :
  (d ≤ d')%nat → propagate_log d b = Ok r → propagate_log d' b = Ok r.
Proof.
  revert d' b r. induction d as [|d IH]; intros d' b r Hle Hr; [done|].
  destruct d' as [|d']; [lia|]. cbn [propagate_log] in *.
  eapply propagate_log_body_mono; [|exact Hr].
  intros s x. apply IH. lia.
Qed.

Lemma unfixed_count_bound b : (unfixed_count b ≤ size * size)%nat.
Proof. unfold unfixed_count. lia. Qed.

Lemma fixes_unfixed_count r c v b b1 :
  grid_ok b → fixes r c v b b1 → (unfixed_count b1 < unfixed_count b)%nat.
Proof.
  intros Hg Hf. unfold unfixed_count.
  pose proof (fixes_count_fixed r c v b b1 Hg Hf).
  pose proof (count_fixed_bound b1). lia.
Qed.

Lemma no_restart_possible ev log :
  ev_possible ev = true → no_restart log → no_restart (ev :: log).
Proof.
  intros Hev Hlog [|i] [|j] e1 e2 Hij Hi Hj Himp; try lia.
  - cbn in Hi. injection Hi as <-. congruence.
  - cbn in Hi, Hj. apply (Hlog i j); [lia | done..].
Qed.

Lemma no_restart_impossible log :
  Forall (λ ev, ev_possible ev = false) log → increasing log →
  no_restart log.
Proof.
  intros Hall Hinc i j e1 e2 Hij Hi Hj _. split; [|by eapply Hinc].
  rewrite Forall_forall in Hall. apply Hall.
  by eapply list_elem_of_lookup_2.
Qed.

(** What a complete run of [propagate] does, given enough depth. *)
Lemma propagate_log_run depth b :
  grid_ok b → (unfixed_count b < depth)%nat →
  ∃ b' log, propagate_log depth b = Ok (b', log) ∧
            replay b log b' ∧ no_restart log ∧
            (possible b' → no_forced b').
Proof.
  revert b. induction depth as [|depth IH]; intros b Hg Hlt; [lia|].
  cbn [propagate_log].
  destruct (propagate_log_body_cases (propagate_log depth) b Hg)
    as [[Hnf ->]|[(r & c & v & b1 & Hfixes & Hposs & ->)
                 |(b2 & log & Hne & Hrep & Himp & Hall & Hinc & ->)]].
  - exists b, []. split_and!; [done | constructor | | done].
    intros i j e1 e2 _ Hi. by rewrite lookup_nil in Hi.
  - destruct (IH b1) as (b' & log & Hrun & Hrep & Hnr & Hnf).
    { by eapply fixes_grid_ok. }
    { pose proof (fixes_unfixed_count r c v b b1 Hg Hfixes). lia. }
    rewrite Hrun. ok_step. cbn [fst snd].
    exists b', (mkEvent r c v true :: log). split_and!; [done | | | done].
    + econstructor; [|exact Hrep]. split; [done|]. cbn.
      apply solution_is_possible_true; [by eapply fixes_grid_ok | done].
    + by apply no_restart_possible.
  - exists b2, log. split_and!; [done | done | |].
    + by apply no_restart_impossible.
    + intros Hp. destruct (possible_impossible b2 Hp Himp).
Qed.

(** ** Soundness of the executable checks *)

Lemma all_cells_spec P b :
  all_cells P b = true →
  ∀ p q, (p < size)%nat → (q < size)%nat →
         ∃ e, cell b p q = Some e ∧ P e = true.
Proof.
  unfold all_cells. rewrite forallb_forall. intros Hall p q Hp Hq.
  specialize (Hall (p, q)). cbn [fst snd] in Hall.
  destruct (cell b p q) as [e|].
  - exists e. split; [done|]. apply Hall.
    apply list_elem_of_In. by apply elem_of_positions.
  - discriminate Hall. apply list_elem_of_In. by apply elem_of_positions.
Qed.

Lemma subseqb_sublist l k : subseqb l k = true → l `sublist_of` k.
Proof.
  revert l. induction k as [|y k IH]; intros [|x l]; cbn; try done.
  - intros _. apply sublist_nil_l.
  - case_bool_decide as Hxy.
    + subst. intros H. apply sublist_skip. auto.
    + intros H. apply sublist_cons. auto.
Qed.

Lemma board_check_sound b :
  board_check b = true → board_inv b ∧ domains_ok b.
Proof.
  unfold board_check. intros H. apply andb_true_iff in H as [Hcells Hnum].
  apply bool_decide_eq_true in Hnum.
  pose proof (all_cells_spec _ _ Hcells) as Hall.
  assert (grid_ok b) as Hg.
  { intros p q Hp Hq. destruct (Hall p q Hp Hq) as (e & -> & _). done. }
  split; [split; [done|]; split; [done|]|].
  - intros p q e Hp Hq He Hf. destruct (Hall p q Hp Hq) as (e' & He' & HP).
    rewrite He in He'. injection He' as <-.
    apply andb_true_iff in HP as [_ HP]. rewrite Hf in HP. cbn in HP.
    by apply bool_decide_eq_true in HP.
  - intros p q e Hp Hq He. destruct (Hall p q Hp Hq) as (e' & He' & HP).
    rewrite He in He'. injection He' as <-.
    apply andb_true_iff in HP as [HP _]. by apply subseqb_sublist.
Qed.

Lemma domain_ok_NoDup d : domain_ok d → NoDup d.
Proof.
  intros Hd. eapply sublist_NoDup; [|exact Hd].
  apply (NoDup_fmap_2 Z.of_nat (seq 1 9)). apply NoDup_seq.
Qed.

Lemma domain_ok_length d : domain_ok d → (length d ≤ size)%nat.
Proof. intros Hd. apply sublist_length in Hd. exact Hd. Qed.

Lemma new_state_ok : board_inv new_state ∧ domains_ok new_state.
Proof. apply board_check_sound. by vm_compute. Qed.

(** * The properties of the specification *)

(** ** C3: [add_number] *)

(** C3.  On a board whose grid is complete and whose domains hold no value
    twice, let the cell at [(row, col)] be unfixed with [value] in its
    domain.  Then [add_number row col value] returns normally; afterwards
    that cell is fixed with domain [[value]], [num_placed] is one more, the
    domain of every other unfixed cell in the same row, column or subgrid
    is its old domain without [value], and so no such cell still contains
    [value]. *)
Theorem add_number_fixes_and_eliminates
    (b : SudokuState) (row col : nat) (value : Z) (e : SudokuEntry) :
  grid_ok b →
  (∀ p q e0, (p < size)%nat → (q < size)%nat →
             cell b p q = Some e0 → NoDup (domain e0)) →
  (row < size)%nat → (col < size)%nat →
  cell b row col = Some e → fixed e = false → value ∈ domain e →
  ∃ b', add_number row col value b = Ok b' ∧
        cell b' row col = Some {| fixed := true; domain := [value] |} ∧
        num_placed b' = num_placed b + 1 ∧
        (∀ p q e0, peer row col p q → (p, q) ≠ (row, col) →
           cell b p q = Some e0 → fixed e0 = false →
           cell b' p q =
             Some {| fixed := false; domain := strike value (domain e0) |}) ∧
        (∀ p q e1, peer row col p q → (p, q) ≠ (row, col) →
           cell b' p q = Some e1 → fixed e1 = false →
           value ∉ domain e1).
Proof.
  intros Hg Hnd Hrow Hcol He Hf Hv.
  destruct (add_number_spec row col value b e Hg Hrow Hcol He Hv)
    as (b' & Hadd & Hnum & Hrc & _).
  destruct (add_number_cells row col value b e b' Hg Hrow Hcol He Hv Hadd)
    as (Hg' & _ & _ & Hcells).
  exists b'. split_and!; try done.
  - intros p q e0 Hpeer Hne He0 Hf0.
    destruct (Hcells p q e0 Hne He0) as (e1 & He1 & Hf1 & _ & _ & _ & Hdom).
    rewrite He1. f_equal. destruct e1 as [f1 d1]. cbn in *. subst f1.
    rewrite Hf0. f_equal. apply Hdom; [done | done |].
    destruct Hpeer as [[Hp Hq] _]. exact (Hnd p q e0 Hp Hq He0).
  - intros p q e1 Hpeer Hne He1 Hf1.
    pose proof Hpeer as [[Hp Hq] _].
    destruct (grid_ok_cell b p q Hg Hp Hq) as [e0 He0].
    destruct (Hcells p q e0 Hne He0) as (e1' & He1' & Hf1' & _ & _ & _ & Hdom).
    rewrite He1 in He1'. injection He1' as <-.
    pose proof (Hnd p q e0 Hp Hq He0) as Hnd0.
    rewrite Hdom; [|done|congruence|done].
    by apply strike_NoDup.
Qed.

Lemma add_number_fixes_and_eliminates_witness :
  ∃ b', add_number 0 1 7 new_state = Ok b' ∧
        cell b' 0 1 = Some {| fixed := true; domain := [7] |} ∧
        num_placed b' = num_placed new_state + 1 ∧
        (∀ p q e0, peer 0 1 p q → (p, q) ≠ (0%nat, 1%nat) →
           cell new_state p q = Some e0 → fixed e0 = false →
           cell b' p q =
             Some {| fixed := false; domain := strike 7 (domain e0) |}) ∧
        (∀ p q e1, peer 0 1 p q → (p, q) ≠ (0%nat, 1%nat) →
           cell b' p q = Some e1 → fixed e1 = false → 7 ∉ domain e1).
Proof.
  apply (add_number_fixes_and_eliminates new_state 0 1 7 new_entry).
  - apply new_state_ok.
  - intros p q e0 Hp Hq He0. apply domain_ok_NoDup.
    exact (proj2 new_state_ok p q e0 Hp Hq He0).
  - unfold size. lia.
  - unfold size. lia.
  - reflexivity.
  - reflexivity.
  - cbn. do 6 right. left.
Defined.

(** ** C4: [get_most_constrained_cell] *)

(** C4, as the code has it.  On a board whose grid is complete and whose
    domains have at most nine values, [get_most_constrained_cell] returns
    an unfixed cell of least width among the unfixed cells, and among the
    unfixed cells of that width the one met LAST in the row-major scan
    (every other one comes before it); it returns [None] exactly when no
    cell is unfixed.  On the empty board it returns [(8, 8)]. *)
Theorem get_most_constrained_cell_last_minimal (b : SudokuState) :
  grid_ok b →
  (∀ p q e, (p < size)%nat → (q < size)%nat →
            cell b p q = Some e → (width e ≤ size)%nat) →
  (∃ loc, get_most_constrained_cell b = Ok loc ∧
     match loc with
     | None =>
         ∀ p q e, (p < size)%nat → (q < size)%nat →
                  cell b p q = Some e → fixed e = true
     | Some (i, j) =>
         (i < size)%nat ∧ (j < size)%nat ∧
         ∃ e, cell b i j = Some e ∧ fixed e = false ∧
              ∀ p q e', (p < size)%nat → (q < size)%nat →
                cell b p q = Some e' → fixed e' = false →
                (width e ≤ width e')%nat ∧
                (width e' = width e →
                 (p, q) = (i, j) ∨ row_major_lt (p, q) (i, j))
     end) ∧
  get_most_constrained_cell new_state = Ok (Some (8%nat, 8%nat)).
Proof.
  intros Hg Hw. split; [|by vm_compute].
  destruct (get_most_constrained_cell_scan b Hg)
    as ([dom [[i j]|]] & Hres & Hdom & Hinv); cbn [fst snd] in *.
  - exists (Some (i, j)). split; [done|].
    destruct Hinv as (Hij & (e & He & Hf & Hwe) & Hall).
    apply elem_of_positions in Hij as [Hi Hj]. split_and!; try done.
    exists e. split_and!; try done. intros p q e' Hp Hq He' Hf'.
    rewrite Hwe. apply Hall; try done. by apply elem_of_positions.
  - exists None. split; [done|]. destruct Hinv as [_ Hall].
    intros p q e Hp Hq He. destruct (fixed e) eqn:Hf; [done|].
    assert ((p, q) ∈ positions) as Hin by by apply elem_of_positions.
    specialize (Hall p q e Hin He Hf). specialize (Hw p q e Hp Hq He). lia.
Qed.

Lemma get_most_constrained_cell_last_minimal_witness :
  (∃ loc, get_most_constrained_cell new_state = Ok loc ∧
     match loc with
     | None =>
         ∀ p q e, (p < size)%nat → (q < size)%nat →
                  cell new_state p q = Some e → fixed e = true
     | Some (i, j) =>
         (i < size)%nat ∧ (j < size)%nat ∧
         ∃ e, cell new_state i j = Some e ∧ fixed e = false ∧
              ∀ p q e', (p < size)%nat → (q < size)%nat →
                cell new_state p q = Some e' → fixed e' = false →
                (width e ≤ width e')%nat ∧
                (width e' = width e →
                 (p, q) = (i, j) ∨ row_major_lt (p, q) (i, j))
     end) ∧
  get_most_constrained_cell new_state = Ok (Some (8%nat, 8%nat)).
Proof.
  apply (get_most_constrained_cell_last_minimal new_state).
  - apply new_state_ok.
  - intros p q e Hp Hq He. apply domain_ok_length.
    exact (proj2 new_state_ok p q e Hp Hq He).
Defined.

(** C4 as claimed fails: on the empty board every cell ties with width 9,
    and the cell returned is not [(0, 0)]. *)
Lemma get_most_constrained_cell_not_first :
  get_most_constrained_cell new_state ≠ Ok (Some (0%nat, 0%nat)).
Proof. by vm_compute. Qed.

(** ** C8: the assertions of [fix] and [eliminate] *)

(** C8, as the code has it.  [fix] fails its assertion whenever the value
    is not in the domain, so in particular when an already fixed cell is
    fixed to a value other than the one it holds; [eliminate] fails its
    assertion exactly when the cell is fixed and the value is in its
    domain, and a value that is not in the domain is passed over, also on
    a fixed cell.  On the board, [add_number] with a value that is not in
    the cell's domain raises [AssertionError]. *)
Theorem assertions_of_fix_and_eliminate (n : Z) (e : SudokuEntry) :
  (n ∉ domain e → fix_entry n e = Raise AssertionError) ∧
  (∀ m, fixed e = true → domain e = [m] → n ≠ m →
        fix_entry n e = Raise AssertionError) ∧
  (eliminate n e = Raise AssertionError ↔ fixed e = true ∧ n ∈ domain e) ∧
  (n ∉ domain e → eliminate n e = Ok e) ∧
  (∀ b row col, cell b row col = Some e → n ∉ domain e →
     add_number row col n b = Raise AssertionError).
Proof.
  assert (n ∉ domain e → fix_entry n e = Raise AssertionError) as Hfix.
  { intros Hn. unfold fix_entry, contains. by rewrite bool_decide_false. }
  split_and!.
  - exact Hfix.
  - intros m _ Hd Hne. apply Hfix. rewrite Hd.
    by intros ->%list_elem_of_singleton.
  - unfold eliminate, contains.
    case_bool_decide as Hn; destruct (fixed e) eqn:Hf; cbn.
    + split; [done|]. done.
    + rewrite remove_strike by done. split; [done|]. by intros [? _].
    + split; [done|]. by intros [_ ?].
    + split; [done|]. by intros [? _].
  - intros Hn. unfold eliminate, contains. by rewrite bool_decide_false.
  - intros b row col He Hn. unfold add_number.
    rewrite get_entry_cell, He. ok_step. by rewrite Hfix.
Qed.

Lemma assertions_of_fix_and_eliminate_witness :
  fix_entry 3 {| fixed := true; domain := [7] |} = Raise AssertionError ∧
  eliminate 3 {| fixed := true; domain := [7] |}
    = Ok {| fixed := true; domain := [7] |} ∧
  add_number 0 1 3 (get_ok (add_number 0 1 7 new_state))
    = Raise AssertionError.
Proof.
  destruct (assertions_of_fix_and_eliminate
              3 {| fixed := true; domain := [7] |})
    as (_ & Hfix & _ & Helim & Hadd).
  assert (3 ∉ [7]) as Hnot by (by intros ?%list_elem_of_singleton).
  split_and!.
  - by apply (Hfix 7).
  - by apply Helim.
  - apply Hadd; [by vm_compute | done].
Defined.

(** C8 as claimed fails twice: fixing an already fixed cell to its own
    value raises nothing, and eliminating another value from a fixed cell
    raises nothing. *)
Lemma fixed_cell_accepts_fix_and_eliminate :
  fix_entry 5 {| fixed := true; domain := [5] |}
    = Ok {| fixed := true; domain := [5] |} ∧
  eliminate 3 {| fixed := true; domain := [5] |}
    = Ok {| fixed := true; domain := [5] |}.
Proof. split; reflexivity. Qed.

(** ** The scan of [propagate], position by position *)

Lemma propagate_body_flat rec b :
  propagate_body rec b =
  f ← for_loop positions (λ pos self,
        e ← get_entry self pos.1 pos.2;
        if negb (is_fixed e) && bool_decide (width e = 1%nat) then
          v ← index (values e) 0;
          self ← add_number pos.1 pos.2 v self;
          ok ← solution_is_possible self;
          if (ok : bool) then
            self ← rec self;
            Ok (Return self)
          else Ok (Continue self)
        else Ok (Continue self)) b;
  match f with
  | Return self => Ok self
  | Continue self => Ok self
  end.
Proof.
  unfold propagate_body.
  by rewrite (for_loop_grid (range size) (range size)
    (λ ri ci self,
      e ← get_entry self ri ci;
      if negb (is_fixed e) && bool_decide (width e = 1%nat) then
        v ← index (values e) 0;
        self ← add_number ri ci v self;
        ok ← solution_is_possible self;
        if (ok : bool) then
          self ← rec self;
          Ok (Return self)
        else Ok (Continue self)
      else Ok (Continue self))).
Qed.

Lemma index_only_value e v : domain e = [v] → index (values e) 0 = Ok v.
Proof. unfold index, values. by intros ->. Qed.

(** Positions without a forced cell are passed over. *)
Lemma scan_skip (rec : SudokuState → result SudokuState) done b :
  (∀ p q, (p, q) ∈ done →
          ∃ e, cell b p q = Some e ∧ forced e = false) →
  for_loop done (λ pos self,
    e ← get_entry self pos.1 pos.2;
    if negb (is_fixed e) && bool_decide (width e = 1%nat) then
      v ← index (values e) 0;
      self ← add_number pos.1 pos.2 v self;
      ok ← solution_is_possible self;
      if (ok : bool) then
        self ← rec self;
        Ok (Return self)
      else Ok (Continue self)
    else Ok (Continue self)) b
  = Ok (Continue b).
Proof.
  induction done as [|[p q] done IH]; intros Hdone; [done|].
  cbn [for_loop fst snd].
  destruct (Hdone p q) as (e & He & Hnf); [left|].
  rewrite get_entry_cell, He. ok_step. fold (forced e). rewrite Hnf. ok_step.
  apply IH. intros p' q' Hin. apply Hdone. by right.
Qed.

(** On an impossible board the scan is a [sweep]. *)
Lemma scan_sweep (rec : SudokuState → result SudokuState) rest b :
  grid_ok b → impossible b →
  (∀ p q, (p, q) ∈ rest → (p < size)%nat ∧ (q < size)%nat) →
  ∃ b', sweep rest b = Ok b' ∧ grid_ok b' ∧ impossible b' ∧
        for_loop rest (λ pos self,
          e ← get_entry self pos.1 pos.2;
          if negb (is_fixed e) && bool_decide (width e = 1%nat) then
            v ← index (values e) 0;
            self ← add_number pos.1 pos.2 v self;
            ok ← solution_is_possible self;
            if (ok : bool) then
              self ← rec self;
              Ok (Return self)
            else Ok (Continue self)
          else Ok (Continue self)) b
        = Ok (Continue b').
Proof.
  revert b. induction rest as [|[p q] rest IH]; intros b Hg Himp Hwin.
  { exists b. done. }
  destruct (Hwin p q) as [Hp Hq]; [left|].
  assert (∀ p' q', (p', q') ∈ rest → (p' < size)%nat ∧ (q' < size)%nat)
    as Hwin' by (intros p' q' Hin; apply Hwin; by right).
  destruct (grid_ok_cell b p q Hg Hp Hq) as [e He].
  cbn [sweep for_loop fst snd]. rewrite get_entry_cell, He. ok_step.
  fold (forced e). destruct (forced e) eqn:Hforced; [|by apply IH].
  apply forced_spec in Hforced as [Hfix [v Hdom]].
  unfold values, index. rewrite Hdom. cbn [lookup list_lookup]. ok_step.
  destruct (add_number_spec p q v b e Hg Hp Hq He) as (b1 & Hadd & _).
  { rewrite Hdom. left. }
  assert (fixes p q v b b1) as Hfixes by (repeat split; eauto).
  pose proof (fixes_grid_ok _ _ _ _ _ Hg Hfixes) as Hg1.
  pose proof (fixes_impossible _ _ _ _ _ Hg Hfixes Himp) as Himp1.
  rewrite Hadd. ok_step.
  rewrite (solution_is_possible_false b1 Hg1 Himp1). ok_step.
  by apply IH.
Qed.

(** The exact result of an activation whose first fix leaves the board
    impossible. *)
Lemma propagate_body_sweep rec b done r c rest e v b1 :
  grid_ok b →
  positions = done ++ (r, c) :: rest →
  (∀ p q e0, (p, q) ∈ done → cell b p q = Some e0 → forced e0 = false) →
  cell b r c = Some e → fixed e = false → domain e = [v] →
  add_number r c v b = Ok b1 →
  solution_is_possible b1 = Ok false →
  ∃ b', sweep rest b1 = Ok b' ∧ propagate_body rec b = Ok b'.
Proof.
  intros Hg Hsplit Hdone He Hf Hd Hadd Hnot.
  assert (∀ p q, (p, q) ∈ positions → (p < size)%nat ∧ (q < size)%nat)
    as Hwin by (intros p q; apply elem_of_positions).
  destruct (Hwin r c) as [Hr Hc].
  { rewrite Hsplit. apply elem_of_app. right. left. }
  assert (fixes r c v b b1) as Hfixes by (repeat split; eauto).
  pose proof (fixes_grid_ok _ _ _ _ _ Hg Hfixes) as Hg1.
  assert (impossible b1) as Himp1.
  { destruct (solution_is_possible_spec b1 Hg1) as (ok & Hok & _ & Hi).
    rewrite Hnot in Hok. injection Hok as <-. auto. }
  destruct (scan_sweep rec rest b1 Hg1 Himp1) as (b' & Hsweep & _ & _ & Hrest).
  { intros p q Hin. apply Hwin. rewrite Hsplit. apply elem_of_app.
    right. by right. }
  exists b'. split; [done|].
  rewrite propagate_body_flat, Hsplit, for_loop_app.
  rewrite scan_skip.
  2:{ intros p q Hin. destruct (Hwin p q) as [Hp Hq].
      { rewrite Hsplit. apply elem_of_app. by left. }
      destruct (grid_ok_cell b p q Hg Hp Hq) as [e0 He0]. eauto. }
  ok_step. cbn [for_loop fst snd]. rewrite get_entry_cell, He. ok_step.
  fold (forced e).
  rewrite (proj2 (forced_spec e)) by eauto.
  rewrite (index_only_value e v Hd). ok_step.
  rewrite Hadd. ok_step. rewrite Hnot. ok_step.
  rewrite Hrest. by ok_step.
Qed.

(** ** C5: what [propagate] does once the board is impossible *)

Lemma propagate_run depth b :
  grid_ok b → (size * size < depth)%nat →
  ∃ b' log, propagate_log depth b = Ok (b', log) ∧
            propagate depth b = Ok b' ∧
            replay b log b' ∧ no_restart log ∧
            (possible b' → no_forced b').
Proof.
  intros Hg Hdepth.
  destruct (propagate_log_run depth b Hg) as (b' & log & Hrun & Hrest).
  { pose proof (unfixed_count_bound b). lia. }
  exists b', log. split; [done|]. split; [|done].
  by rewrite propagate_erase, Hrun.
Qed.

(** C5, as the code has it.  With depth for 81 recursive calls,
    [propagate] returns, and the record of the cells it fixed explains
    the board it returns.  Once fixing a cell has left the board
    impossible there is no further recursive call, but the scan that is
    under way goes on: every cell fixed later lies further on in the
    row-major order and leaves the board impossible as well.  Exactly:
    when the first forced cell of the scan is fixed and the board is then
    impossible, the call returns the result of sweeping the remaining
    positions, fixing each cell that is forced when the scan reaches
    it. *)
Theorem propagate_goes_on_after_impossible (depth : nat) (b : SudokuState) :
  grid_ok b → (size * size < depth)%nat →
  (∃ b' log, propagate_log depth b = Ok (b', log) ∧
             propagate depth b = Ok b' ∧
             replay b log b' ∧
             ∀ i j ev ev', (i < j)%nat →
               log !! i = Some ev → log !! j = Some ev' →
               ev_possible ev = false →
               ev_possible ev' = false ∧
               row_major_lt (ev_pos ev) (ev_pos ev')) ∧
  (∀ done r c rest e v b1,
     positions = done ++ (r, c) :: rest →
     (∀ p q e0, (p, q) ∈ done → cell b p q = Some e0 → forced e0 = false) →
     cell b r c = Some e → fixed e = false → domain e = [v] →
     add_number r c v b = Ok b1 →
     solution_is_possible b1 = Ok false →
     ∃ b', sweep rest b1 = Ok b' ∧ propagate depth b = Ok b').
Proof.
  intros Hg Hdepth. split.
  - destruct (propagate_run depth b Hg Hdepth)
      as (b' & log & Hlog & Hrun & Hrep & Hnr & _).
    exists b', log. split_and!; done.
  - intros done r c rest e v b1 Hsplit Hdone He Hf Hd Hadd Hnot.
    destruct depth as [|depth]; [lia|]. cbn [propagate].
    by eapply propagate_body_sweep.
Qed.

Lemma propagate_goes_on_after_impossible_witness :
  (∃ b' log, propagate_log 82 double_clash_board = Ok (b', log) ∧
             propagate 82 double_clash_board = Ok b' ∧
             replay double_clash_board log b' ∧
             ∀ i j ev ev', (i < j)%nat →
               log !! i = Some ev → log !! j = Some ev' →
               ev_possible ev = false →
               ev_possible ev' = false ∧
               row_major_lt (ev_pos ev) (ev_pos ev')) ∧
  (∃ b', sweep (tail positions)
           (get_ok (add_number 0 0 5 double_clash_board)) = Ok b' ∧
         propagate 82 double_clash_board = Ok b').
Proof.
  destruct (propagate_goes_on_after_impossible 82 double_clash_board)
    as [Hlog Hsweep].
  - apply board_check_sound. by vm_compute.
  - unfold size. lia.
  - split; [exact Hlog|].
    apply (Hsweep [] 0%nat 0%nat (tail positions)
             {| fixed := false; domain := [5] |} 5).
    + reflexivity.
    + intros p q e0 Hin. by apply elem_of_nil in Hin.
    + by vm_compute.
    + reflexivity.
    + reflexivity.
    + by vm_compute.
    + by vm_compute.
Defined.

(** C5 as claimed fails: on [double_clash_board], fixing (0,0) to 5 leaves
    the board impossible, and the same call of [propagate] then fixes
    (0,7) to 4. *)
Lemma propagate_fixes_after_impossible :
  ∃ b', propagate_log 82 double_clash_board
        = Ok (b', [mkEvent 0 0 5 false; mkEvent 0 7 4 false]) ∧
        propagate 82 double_clash_board = Ok b'.
Proof. eexists. split; by vm_compute. Qed.

(** ** C6: calling [propagate] twice *)

Lemma no_forced_body rec b :
  grid_ok b → no_forced b → propagate_log_body rec b = Ok (b, []).
Proof.
  intros Hg Hnf.
  assert (∀ r c v b1, fixes r c v b b1 → False) as Hnofix.
  { intros r c v b1 (Hr & Hc & (e & He & Hf & Hd) & _).
    specialize (Hnf r c e Hr Hc He).
    assert (forced e = true) by (apply forced_spec; eauto). congruence. }
  destruct (propagate_log_body_cases rec b Hg)
    as [[_ ->]|[(r & c & v & b1 & Hfixes & _)
               |(b2 & log & Hne & Hrep & _)]]; [done| |].
  - destruct (Hnofix _ _ _ _ Hfixes).
  - destruct Hrep as [|b ev b1 log b2 [Hfixes _] _]; [done|].
    destruct (Hnofix _ _ _ _ Hfixes).
Qed.

Lemma no_forced_propagate depth b :
  grid_ok b → no_forced b → propagate (S depth) b = Ok b.
Proof.
  intros Hg Hnf. rewrite propagate_erase. cbn [propagate_log].
  by rewrite no_forced_body.
Qed.

(** C6, as the code has it.  With depth for 81 recursive calls, if the
    board that [propagate] returns is still possible, a second call
    returns that same board unchanged. *)
Theorem propagate_idempotent_when_possible
    (depth : nat) (b b' : SudokuState) :
  grid_ok b → (size * size < depth)%nat →
  propagate depth b = Ok b' →
  solution_is_possible b' = Ok true →
  propagate depth b' = Ok b'.
Proof.
  intros Hg Hdepth Hrun Hok.
  destruct (propagate_run depth b Hg Hdepth)
    as (b'' & log & _ & Hrun' & Hrep & _ & Hnf).
  rewrite Hrun in Hrun'. injection Hrun' as <-.
  pose proof (replay_grid_ok b log b' Hg Hrep) as Hg'.
  destruct (solution_is_possible_spec b' Hg') as (ok & Hok' & Hposs & _).
  rewrite Hok in Hok'. injection Hok' as <-.
  destruct depth as [|depth]; [lia|].
  apply no_forced_propagate; auto.
Qed.

(** On [problem1] the first call takes the board from 28 to 54 placed
    numbers and leaves it possible; the second call changes nothing. *)
Lemma propagate_idempotent_when_possible_witness :
  ∃ b', propagate 82 (get_ok problem1) = Ok b' ∧
        num_placed (get_ok problem1) = 28 ∧ num_placed b' = 54 ∧
        b' ≠ get_ok problem1 ∧
        solution_is_possible b' = Ok true ∧
        propagate 82 b' = Ok b'.
Proof.
  eexists. split; [vm_compute; reflexivity|].
  split; [vm_compute; reflexivity|].
  split; [vm_compute; reflexivity|].
  split; [intros H; apply (f_equal num_placed) in H; vm_compute in H;
          discriminate H|].
  split; [vm_compute; reflexivity|].
  apply (propagate_idempotent_when_possible 82 (get_ok problem1)).
  - apply board_check_sound. vm_compute. reflexivity.
  - unfold size. lia.
  - vm_compute. reflexivity.
  - vm_compute. reflexivity.
Defined.

(** C6 as claimed fails: on [clash_board] the first call fixes (0,1) and
    stops on an impossible board in which (0,0) has become forced; the
    second call fixes (0,0) as well. *)
Lemma propagate_not_idempotent :
  ∃ b1 b2, propagate 82 clash_board = Ok b1 ∧
           propagate 82 b1 = Ok b2 ∧
           num_placed b1 = 10 ∧ num_placed b2 = 11 ∧ b1 ≠ b2.
Proof.
  eexists _, _. split_and!; [by vm_compute..|]. by vm_compute.
Qed.

(** ** C7: termination of [propagate] *)

Lemma for_each_preserves {A S} (P : S → Prop) (xs : list A)
    (body : A → S → result S) s s' :
  (∀ x s s', body x s = Ok s' → P s → P s') →
  P s → for_each xs body s = Ok s' → P s'.
Proof.
  intros Hbody. revert s. induction xs as [|x xs IH]; intros s Hs Hrun.
  - cbn in Hrun. by injection Hrun as <-.
  - cbn in Hrun. apply bind_Ok_inv in Hrun as (s1 & Hs1 & Hrun). eauto.
Qed.

Lemma remove_conflict_num_placed i j n s s' :
  remove_conflict i j n s = Ok s' → num_placed s' = num_placed s.
Proof.
  unfold remove_conflict. intros H.
  apply bind_Ok_inv in H as (e & _ & H).
  destruct (negb (is_fixed e)); [|by injection H as <-].
  apply bind_Ok_inv in H as (e' & _ & H). by injection H as <-.
Qed.

Lemma add_number_num_placed r c v s s' :
  add_number r c v s = Ok s' → num_placed s' = num_placed s + 1.
Proof.
  unfold add_number, remove_all_conflicts. intros H.
  apply bind_Ok_inv in H as (e & _ & H).
  apply bind_Ok_inv in H as (e' & _ & H).
  apply bind_Ok_inv in H as (s1 & H1 & H).
  apply bind_Ok_inv in H as (s2 & H2 & H3).
  set (n0 := num_placed s + 1) in *.
  apply (for_each_preserves (λ x, num_placed x = n0)) in H1; [|clear|done].
  2:{ intros i x x' Hx <-. by eapply remove_conflict_num_placed. }
  apply (for_each_preserves (λ x, num_placed x = n0)) in H2; [|clear|done].
  2:{ intros i x x' Hx <-. by eapply remove_conflict_num_placed. }
  apply (for_each_preserves (λ x, num_placed x = n0)) in H3; [done|clear|done].
  intros k x x' Hx Hn.
  apply (for_each_preserves (λ x, num_placed x = n0)) in Hx; [done|clear|done].
  intros l x x' Hx <-. case_bool_decide.
  - by eapply remove_conflict_num_placed.
  - by injection Hx as <-.
Qed.

(** The recursive call of one activation is made on a board whose
    [num_placed] is larger than on entry: nothing else about [rec]
    matters. *)
Lemma propagate_body_rec_arg rec rec' b :
  (∀ s, num_placed b < num_placed s → rec s = rec' s) →
  propagate_body rec b = propagate_body rec' b.
Proof.
  intros Hrec. unfold propagate_body.
  match goal with
  | |- (?l ≫= _) = (?l' ≫= _) =>
      assert (flow_sim (λ s s', s = s' ∧ num_placed b ≤ num_placed s)
                       (λ s s' : SudokuState, s = s') l l') as Hsim
  end.
  { apply for_loop_sim; [|split; [done | lia]]. intros ri s ? [<- Hle].
    apply for_loop_sim; [|done]. clear s Hle. intros ci s ? [<- Hle].
    destruct (get_entry s ri ci) as [e|err]; [|done]. ok_step.
    destruct (negb (is_fixed e) && bool_decide (width e = 1%nat));
      [|by split].
    destruct (index (values e) 0) as [v|err]; [|done]. ok_step.
    destruct (add_number ri ci v s) as [s1|err] eqn:Hadd; [|done]. ok_step.
    apply add_number_num_placed in Hadd.
    destruct (solution_is_possible s1) as [[]|err]; [| |done]; ok_step.
    - rewrite <- Hrec by lia. by destruct (rec s1).
    - split; [done | lia]. }
  unfold flow_sim in Hsim.
  repeat match type of Hsim with
         | context [match ?r with _ => _ end] => destruct r
         end; cbn; try done;
    first [by subst | by (destruct Hsim as [Heq ?]; rewrite Heq)].
Qed.

(** C7.  On a board whose grid is complete, [propagate] returns one and
    the same board for every depth above 81.  The result of an activation
    depends on the recursive call only at boards whose [num_placed] is
    strictly larger than the one it was entered with, and on a board that
    satisfies the board invariant [num_placed] is at most 81. *)
Theorem propagate_terminates (b : SudokuState) :
  grid_ok b →
  (∃ b', ∀ depth, (size * size < depth)%nat → propagate depth b = Ok b') ∧
  (∀ rec rec', (∀ s, num_placed b < num_placed s → rec s = rec' s) →
     propagate_body rec b = propagate_body rec' b) ∧
  (board_inv b → 0 ≤ num_placed b ≤ 81).
Proof.
  intros Hg. split_and!.
  - destruct (propagate_run (S (size * size)) b Hg) as (b' & log & Hlog & _);
      [lia|].
    exists b'. intros depth Hdepth.
    rewrite propagate_erase.
    by rewrite (propagate_log_mono (S (size * size)) depth b (b', log)).
  - intros rec rec' Hrec. by apply propagate_body_rec_arg.
  - intros (_ & Hcount & _). unfold counter_ok in Hcount.
    pose proof (count_fixed_bound b). unfold size in *. lia.
Qed.

Lemma propagate_terminates_witness :
  (∃ b', ∀ depth, (size * size < depth)%nat →
         propagate depth clash_board = Ok b') ∧
  (∀ rec rec',
     (∀ s, num_placed clash_board < num_placed s → rec s = rec' s) →
     propagate_body rec clash_board = propagate_body rec' clash_board) ∧
  (board_inv clash_board → 0 ≤ num_placed clash_board ≤ 81).
Proof.
  apply (propagate_terminates clash_board).
  apply board_check_sound. by vm_compute.
Defined.

(** ** Loops that collect results *)

Lemma for_each_ext {A S} (xs : list A) (body body' : A → S → result S) s :
  (∀ x s, body x s = body' x s) →
  for_each xs body s = for_each xs body' s.
Proof.
  intros Hext. revert s. induction xs as [|x xs IH]; intros s; [done|].
  cbn. rewrite Hext. destruct (body' x s); cbn; auto.
Qed.

Lemma for_each_collect {A B} (f : A → result (list B)) xs acc :
  for_each xs (λ x acc, r ← f x; Ok (acc ++ r)) acc
  = rs ← map_result f xs; Ok (acc ++ concat rs).
Proof.
  revert acc. induction xs as [|x xs IH]; intros acc; cbn.
  - by rewrite app_nil_r.
  - destruct (f x) as [r|e]; cbn; [|done]. rewrite IH.
    destruct (map_result f xs) as [rs|e]; cbn; [|done].
    by rewrite app_assoc.
Qed.

Lemma map_result_Forall2 {A B} (f : A → result B) xs ys :
  map_result f xs = Ok ys ↔ Forall2 (λ x y, f x = Ok y) xs ys.
Proof.
  revert ys. induction xs as [|x xs IH]; intros ys; cbn.
  - split; [intros [= <-]; constructor | by inversion 1].
  - split.
    + intros H. apply bind_Ok_inv in H as (y & Hy & H).
      apply bind_Ok_inv in H as (ys' & Hys & [= <-]).
      constructor; [done | by apply IH].
    + inversion 1 as [|? y ? ys' Hy Hys]; subst. rewrite Hy. cbn.
      apply IH in Hys. by rewrite Hys.
Qed.

Lemma concat_keep {A} (P : A → bool) (xs : list A) :
  concat ((λ x, if P x then [x] else []) <$> xs)
  = filter (λ x, P x = true) xs.
Proof.
  induction xs as [|x xs IH]; [done|].
  rewrite fmap_cons, filter_cons. cbn [concat]. rewrite IH.
  destruct (P x); [by rewrite decide_True | by rewrite decide_False].
Qed.

(** ** [next_states] *)

Lemma next_states_unfold depth b :
  next_states depth b =
  loc ← get_most_constrained_cell b;
  match loc with
  | None => Raise TypeError
  | Some (row, col) =>
      e ← get_entry b row col;
      rs ← map_result (keep depth b row col) (values e);
      Ok (concat rs)
  end.
Proof.
  unfold next_states.
  destruct (get_most_constrained_cell b) as [[[row col]|]|err]; ok_step;
    [|done..].
  destruct (get_entry b row col) as [e|err]; ok_step; [|done].
  transitivity
    (for_each (values e) (λ x acc, r ← keep depth b row col x; Ok (acc ++ r))
       []).
  - apply for_each_ext. intros v acc. unfold keep, candidate.
    destruct (add_number row col v (deepcopy b)) as [b1|err]; ok_step;
      [|done].
    destruct (propagate depth b1) as [nb|err]; ok_step; [|done].
    destruct (solution_is_possible nb) as [[]|err]; ok_step; [done| |done].
    by rewrite app_nil_r.
  - by rewrite for_each_collect.
Qed.

Lemma candidate_run depth b r c e v :
  grid_ok b → (size * size < depth)%nat →
  (r < size)%nat → (c < size)%nat →
  cell b r c = Some e → fixed e = false → v ∈ domain e →
  ∃ b1 log nb, places r c v b b1 ∧ replay b1 log nb ∧ grid_ok nb ∧
               candidate depth b r c v = Ok nb.
Proof.
  intros Hg Hdepth Hr Hc He Hf Hv.
  destruct (add_number_spec r c v b e Hg Hr Hc He Hv) as (b1 & Hadd & _).
  assert (places r c v b b1) as Hpl by (repeat split; eauto).
  pose proof (places_grid_ok r c v b b1 Hg Hpl) as Hg1.
  destruct (propagate_run depth b1 Hg1 Hdepth)
    as (nb & log & _ & Hrun & Hrep & _).
  exists b1, log, nb. split_and!; try done.
  - by eapply replay_grid_ok.
  - unfold candidate, deepcopy. rewrite Hadd. ok_step. done.
Qed.

Lemma keep_run depth b r c v nb :
  grid_ok nb → candidate depth b r c v = Ok nb →
  keep depth b r c v = Ok (if is_possible nb then [nb] else []).
Proof.
  intros Hg Hc. unfold keep, is_possible. rewrite Hc. ok_step.
  by destruct (solution_is_possible_spec nb Hg) as (ok & -> & _).
Qed.

(** What [next_states] returns when the scan finds a cell. *)
Lemma next_states_at depth b row col e :
  grid_ok b → (size * size < depth)%nat →
  get_most_constrained_cell b = Ok (Some (row, col)) →
  (row < size)%nat → (col < size)%nat →
  cell b row col = Some e → fixed e = false →
  ∃ cands,
    Forall2 (λ v nb, candidate depth b row col v = Ok nb ∧
                    ∃ b1 log, places row col v b b1 ∧ replay b1 log nb)
            (domain e) cands ∧
    next_states depth b = Ok (filter (λ nb, is_possible nb = true) cands).
Proof.
  intros Hg Hdepth Hloc Hrow Hcol He Hf.
  rewrite next_states_unfold, Hloc. ok_step.
  rewrite get_entry_cell, He. ok_step. unfold values.
  assert (∀ vs, (∀ v, v ∈ vs → v ∈ domain e) →
    ∃ cands,
      Forall2 (λ v nb, candidate depth b row col v = Ok nb ∧
                      ∃ b1 log, places row col v b b1 ∧ replay b1 log nb)
              vs cands ∧
      map_result (keep depth b row col) vs
      = Ok ((λ nb, if is_possible nb then [nb] else []) <$> cands)) as Hloop.
  { induction vs as [|v vs IH]; intros Hin.
    - exists []. split; [constructor | done].
    - destruct IH as (cands & Hall & Hmap).
      { intros w Hw. apply Hin. by right. }
      destruct (candidate_run depth b row col e v)
        as (b1 & log & nb & Hpl & Hrep & Hgn & Hcand); try done.
      { apply Hin. left. }
      exists (nb :: cands). split; [constructor; eauto|].
      cbn. rewrite (keep_run depth b row col v nb Hgn Hcand). ok_step.
      by rewrite Hmap. }
  destruct (Hloop (domain e)) as (cands & Hall & ->); [done|].
  exists cands. split; [done|]. ok_step. by rewrite concat_keep.
Qed.

Lemma is_possible_true nb : grid_ok nb → is_possible nb = true → possible nb.
Proof.
  intros Hg. unfold is_possible.
  destruct (solution_is_possible_spec nb Hg) as (ok & -> & Hp & _). auto.
Qed.

(** The successors are children of the board. *)
Lemma next_states_children depth b l :
  grid_ok b → (size * size < depth)%nat →
  next_states depth b = Ok l → Forall (child b) l.
Proof.
  intros Hg Hdepth Hl.
  destruct (get_most_constrained_cell_scan b Hg)
    as ([dom [[row col]|]] & Hloc & _ & Hinv); cbn [fst snd] in *.
  2:{ rewrite next_states_unfold, Hloc in Hl. done. }
  destruct Hinv as (Hin & (e & He & Hf & _) & _).
  apply elem_of_positions in Hin as [Hrow Hcol].
  destruct (next_states_at depth b row col e)
    as (cands & Hall & Hnext); try done.
  rewrite Hl in Hnext. injection Hnext as ->.
  apply Forall_forall. intros nb Hnb.
  apply list_elem_of_filter in Hnb as [Hposs Hnb].
  apply list_elem_of_lookup in Hnb as [i Hi].
  destruct (Forall2_lookup_r _ _ _ _ _ Hall Hi)
    as (v & _ & _ & b1 & log & Hpl & Hrep).
  exists row, col, v, b1, log. split_and!; try done.
  apply is_possible_true; [|done].
  eapply replay_grid_ok; [|exact Hrep]. by eapply places_grid_ok.
Qed.

Lemma child_board_inv b nb : board_inv b → child b nb → board_inv nb.
Proof.
  intros Hb (r & c & v & b1 & log & Hpl & Hrep & _).
  eapply replay_board_inv; [|exact Hrep]. by eapply places_board_inv.
Qed.

Lemma child_domains_ok b nb :
  grid_ok b → domains_ok b → child b nb → domains_ok nb.
Proof.
  intros Hg Hd (r & c & v & b1 & log & Hpl & Hrep & _).
  eapply replay_domains_ok; [| |exact Hrep].
  - by eapply places_grid_ok.
  - by eapply places_domains_ok.
Qed.


Lemma child_count_fixed b nb :
  grid_ok b → child b nb → (count_fixed b < count_fixed nb)%nat.
Proof.
  intros Hg (r & c & v & b1 & log & Hpl & Hrep & _).
  rewrite (replay_count_fixed b1 log nb); [|by eapply places_grid_ok|done].
  rewrite (places_count_fixed r c v b b1 Hg Hpl). lia.
Qed.

(** ** Full and partial boards *)

Lemma filter_length_all {A} (P : A → Prop) `{!∀ x, Decision (P x)} l :
  length (filter P l) = length l → Forall P l.
Proof.
  induction l as [|x l IH]; [constructor|]. rewrite filter_cons.
  pose proof (length_filter P l). destruct (decide (P x)); cbn; intros Hlen.
  - constructor; [done|]. apply IH. lia.
  - lia.
Qed.

Lemma filter_all {A} (P : A → Prop) `{!∀ x, Decision (P x)} l :
  Forall P l → filter P l = l.
Proof.
  induction 1 as [|x l Hx _ IH]; [done|].
  by rewrite filter_cons, decide_True, IH.
Qed.

Lemma elem_of_concat {A} (x : A) (ls : list (list A)) :
  x ∈ concat ls ↔ ∃ l, x ∈ l ∧ l ∈ ls.
Proof.
  induction ls as [|l ls IH]; cbn [concat].
  - split; [by intros ?%elem_of_nil|]. by intros (l & _ & ?%elem_of_nil).
  - rewrite elem_of_app, IH. split.
    + intros [Hx|(l' & Hx & Hl')]; [exists l | exists l']; split; try done;
        [left | by right].
    + intros (l' & Hx & [->|Hl']%elem_of_cons); eauto.
Qed.

Lemma is_goal_spec b : is_goal b = true ↔ num_placed b = 81.
Proof.
  unfold is_goal, size. rewrite bool_decide_eq_true. cbn. lia.
Qed.

Lemma full_board_fixed b p q e :
  board_inv b → num_placed b = 81 →
  (p < size)%nat → (q < size)%nat → cell b p q = Some e → fixed e = true.
Proof.
  intros (Hg & Hcount & _) Hnum Hp Hq He. unfold counter_ok in Hcount.
  assert (count_fixed b = length positions) as Hlen.
  { change (length positions) with 81%nat. lia. }
  apply filter_length_all in Hlen. rewrite Forall_forall in Hlen.
  specialize (Hlen (p, q)). unfold cell_fixed in Hlen. cbn [fst snd] in Hlen.
  rewrite He in Hlen. apply Hlen. by apply elem_of_positions.
Qed.

Lemma full_board_possible b : board_inv b → num_placed b = 81 → possible b.
Proof.
  intros Hinv Hnum p q e Hp Hq He.
  pose proof (full_board_fixed b p q e Hinv Hnum Hp Hq He) as Hf.
  destruct Hinv as (_ & _ & Hfixed).
  specialize (Hfixed p q e Hp Hq He Hf). by destruct (domain e).
Qed.

Lemma partial_board_unfixed b :
  board_inv b → is_goal b = false →
  ∃ p q e, (p < size)%nat ∧ (q < size)%nat ∧
           cell b p q = Some e ∧ fixed e = false.
Proof.
  intros (Hg & Hcount & _) Hgoal.
  assert (num_placed b ≠ 81) as Hnum.
  { intros Hn. apply is_goal_spec in Hn. congruence. }
  unfold counter_ok in Hcount.
  destruct (decide (Forall (λ pos, cell_fixed b pos = true) positions))
    as [Hall|Hex].
  - exfalso. apply Hnum. rewrite Hcount. unfold count_fixed.
    by rewrite (filter_all _ _ Hall).
  - apply not_Forall_Exists in Hex; [|apply _].
    apply Exists_exists in Hex as ([p q] & Hin & Hnf).
    apply elem_of_positions in Hin as [Hp Hq].
    destruct (grid_ok_cell b p q Hg Hp Hq) as [e He].
    exists p, q, e. split_and!; try done.
    destruct (fixed e) eqn:Hf; [|done]. exfalso. apply Hnf.
    unfold cell_fixed. cbn [fst snd]. by rewrite He.
Qed.

(** ** [next_states] on a board with an unfixed cell *)

Lemma next_states_run depth b :
  grid_ok b → domains_ok b → (size * size < depth)%nat →
  (∃ p q e, (p < size)%nat ∧ (q < size)%nat ∧
            cell b p q = Some e ∧ fixed e = false) →
  ∃ row col e cands,
    get_most_constrained_cell b = Ok (Some (row, col)) ∧
    (row < size)%nat ∧ (col < size)%nat ∧
    cell b row col = Some e ∧ fixed e = false ∧
    Forall2 (λ v nb, candidate depth b row col v = Ok nb ∧
                    ∃ b1 log, places row col v b b1 ∧ replay b1 log nb)
            (domain e) cands ∧
    next_states depth b = Ok (filter (λ nb, is_possible nb = true) cands).
Proof.
  intros Hg Hdom Hdepth (p & q & e0 & Hp & Hq & He0 & Hf0).
  destruct (get_most_constrained_cell_scan b Hg)
    as ([dom [[row col]|]] & Hloc & _ & Hinv); cbn [fst snd] in *.
  - destruct Hinv as (Hin & (e & He & Hf & _) & _).
    apply elem_of_positions in Hin as [Hrow Hcol].
    destruct (next_states_at depth b row col e)
      as (cands & Hall & Hnext); try done.
    exists row, col, e, cands. split_and!; done.
  - exfalso. destruct Hinv as [_ Hall].
    assert ((p, q) ∈ positions) as Hin by by apply elem_of_positions.
    specialize (Hall p q e0 Hin He0 Hf0).
    pose proof (domain_ok_length _ (Hdom p q e0 Hp Hq He0)).
    unfold width in Hall. lia.
Qed.

(** ** [dfs] *)

Lemma dfs_unfold {State} (goal : State → bool)
    (successors : State → result (list State)) depth state :
  dfs goal successors (S depth) state =
  if goal state then Ok [state]
  else succs ← successors state;
       rs ← map_result (dfs goal successors depth) succs;
       Ok (concat rs).
Proof.
  cbn [dfs]. destruct (goal state); [done|].
  destruct (successors state) as [succs|err]; ok_step; [|done].
  by rewrite for_each_collect.
Qed.

Lemma dfs_reaches {State} (goal : State → bool)
    (successors : State → result (list State)) depth state l :
  dfs goal successors depth state = Ok l →
  ∀ g, g ∈ l ↔ reaches goal successors state g.
Proof.
  revert state l. induction depth as [|depth IH]; intros s l Hl; [done|].
  rewrite dfs_unfold in Hl. destruct (goal s) eqn:Hgoal.
  - injection Hl as <-. intros g. rewrite list_elem_of_singleton. split.
    + intros ->. by constructor.
    + inversion 1; [done | congruence].
  - apply bind_Ok_inv in Hl as (succs & Hsuccs & Hl).
    apply bind_Ok_inv in Hl as (rs & Hrs & [= <-]).
    apply map_result_Forall2 in Hrs. intros g. split.
    + intros Hg. apply elem_of_concat in Hg as (r & Hg & Hr).
      apply list_elem_of_lookup in Hr as [i Hi].
      destruct (Forall2_lookup_r _ _ _ _ _ Hrs Hi) as (s' & Hs' & Hdfs).
      eapply reaches_step; [done | done | |].
      * by eapply list_elem_of_lookup_2.
      * by apply (IH s' r).
    + inversion 1 as [|? succs' s' ? _ Hsuccs' Hin Hreach]; subst;
        [congruence|].
      rewrite Hsuccs in Hsuccs'. injection Hsuccs' as <-.
      apply list_elem_of_lookup in Hin as [i Hi].
      destruct (Forall2_lookup_l _ _ _ _ _ Hrs Hi) as (r & Hr & Hdfs).
      apply elem_of_concat. exists r. split.
      * by apply (IH s' r).
      * by eapply list_elem_of_lookup_2.
Qed.

Lemma map_result_total {A B} (P : A → Prop) (f : A → result B) xs :
  Forall P xs → (∀ x, P x → ∃ y, f x = Ok y) →
  ∃ ys, map_result f xs = Ok ys.
Proof.
  intros Hall Hf. induction Hall as [|x xs Hx _ [ys IH]]; [by exists []|].
  destruct (Hf x Hx) as [y Hy]. exists (y :: ys). cbn. by rewrite Hy, IH.
Qed.

(** The search returns on every board that satisfies the invariants. *)
Lemma dfs_sudoku_total depth d b :
  board_inv b → domains_ok b → (size * size < depth)%nat →
  (unfixed_count b < d)%nat →
  ∃ l, dfs is_goal (next_states depth) d b = Ok l.
Proof.
  revert b. induction d as [|d IH]; intros b Hinv Hdom Hdepth Hd; [lia|].
  rewrite dfs_unfold. destruct (is_goal b) eqn:Hgoal; [eauto|].
  pose proof Hinv as (Hg & _).
  destruct (next_states_run depth b Hg Hdom Hdepth)
    as (row & col & e & cands & _ & _ & _ & _ & _ & _ & Hnext).
  { by apply partial_board_unfixed. }
  rewrite Hnext. ok_step.
  pose proof (next_states_children depth b _ Hg Hdepth Hnext) as Hch.
  destruct (map_result_total (child b) (dfs is_goal (next_states depth) d)
              _ Hch) as [rs ->]; [|eauto].
  intros nb Hnb. apply IH; try done.
  - by eapply child_board_inv.
  - by eapply child_domains_ok.
  - pose proof (child_count_fixed b nb Hg Hnb).
    pose proof (count_fixed_bound nb). unfold unfixed_count in *. lia.
Qed.

Lemma reaches_board_inv depth b g :
  (size * size < depth)%nat → board_inv b →
  reaches is_goal (next_states depth) b g →
  board_inv g ∧ is_goal g = true.
Proof.
  intros Hdepth Hinv Hreach.
  induction Hreach as [s Hgoal|s succs s' g Hgoal Hsuccs Hin Hreach IH];
    [done|].
  apply IH. pose proof Hinv as (Hg & _).
  pose proof (next_states_children depth s succs Hg Hdepth Hsuccs) as Hch.
  rewrite Forall_forall in Hch. eapply child_board_inv; eauto.
Qed.

(** Above 81, the depth makes no difference. *)
Lemma propagate_depth depth depth' b :
  grid_ok b → (size * size < depth)%nat → (size * size < depth')%nat →
  propagate depth b = propagate depth' b.
Proof.
  intros Hg Hd Hd'.
  destruct (propagate_log_run (S (size * size)) b Hg) as (b' & log & Hlog & _).
  { pose proof (unfixed_count_bound b). lia. }
  rewrite !propagate_erase.
  rewrite (propagate_log_mono (S (size * size)) depth b (b', log)) by (lia || done).
  by rewrite (propagate_log_mono (S (size * size)) depth' b (b', log))
    by (lia || done).
Qed.

Lemma add_number_Ok_grid_ok r c v b b1 :
  grid_ok b → (r < size)%nat → (c < size)%nat →
  add_number r c v b = Ok b1 → grid_ok b1.
Proof.
  intros Hg Hr Hc Hadd. destruct (grid_ok_cell b r c Hg Hr Hc) as [e He].
  assert (v ∈ domain e) as Hv.
  { unfold add_number in Hadd. rewrite get_entry_cell, He in Hadd.
    unfold fix_entry, contains in Hadd. revert Hadd. ok_step.
    case_bool_decide; [done|]. by ok_step. }
  by destruct (add_number_cells r c v b e b1 Hg Hr Hc He Hv Hadd).
Qed.

Lemma map_result_ext {A B} (f g : A → result B) xs :
  (∀ x, f x = g x) → map_result f xs = map_result g xs.
Proof.
  intros Hext. induction xs as [|x xs IH]; [done|]. cbn.
  by rewrite Hext, IH.
Qed.

Lemma next_states_depth depth depth' b :
  grid_ok b → (size * size < depth)%nat → (size * size < depth')%nat →
  next_states depth b = next_states depth' b.
Proof.
  intros Hg Hd Hd'. rewrite !next_states_unfold.
  destruct (get_most_constrained_cell_scan b Hg)
    as ([dom [[row col]|]] & -> & _ & Hinv); cbn [fst snd] in *; [|done].
  destruct Hinv as (Hin & _). apply elem_of_positions in Hin as [Hrow Hcol].
  ok_step. destruct (get_entry b row col) as [e|err]; ok_step; [|done].
  rewrite (map_result_ext (keep depth b row col) (keep depth' b row col));
    [done|].
  intros v. unfold keep, candidate, deepcopy.
  destruct (add_number row col v b) as [b1|err] eqn:Hadd; ok_step; [|done].
  rewrite (propagate_depth depth depth' b1); [done| |done..].
  exact (add_number_Ok_grid_ok row col v b b1 Hg Hrow Hcol Hadd).
Qed.

(** ** C2: [next_states] *)

(** C2.  On a board with a complete grid, domains that are ascending
    selections of 1..9 and at least one unfixed cell, with depth for 81
    recursive calls of [propagate]: [next_states] branches on the cell
    [(row, col)] that [get_most_constrained_cell] returns; for every value
    of that cell's domain, in the order of the domain (ascending), the
    candidate is the copy of the board with the value placed there and
    [propagate] run; the list returned consists of exactly the candidates
    on which [solution_is_possible] answers true, in that order.  An
    empty domain gives the empty list, and the empty board gives nine
    successors. *)
Theorem next_states_branches (depth : nat) (b : SudokuState) :
  grid_ok b → domains_ok b → (size * size < depth)%nat →
  (∃ p q e, (p < size)%nat ∧ (q < size)%nat ∧
            cell b p q = Some e ∧ fixed e = false) →
  (∃ row col e cands,
     get_most_constrained_cell b = Ok (Some (row, col)) ∧
     cell b row col = Some e ∧ fixed e = false ∧
     domain_ok (domain e) ∧
     map_result (candidate depth b row col) (domain e) = Ok cands ∧
     Forall (λ nb, solution_is_possible nb = Ok (is_possible nb)) cands ∧
     next_states depth b = Ok (filter (λ nb, is_possible nb = true) cands) ∧
     (domain e = [] → next_states depth b = Ok [])) ∧
  (∃ l, next_states depth new_state = Ok l ∧ length l = 9%nat).
Proof.
  intros Hg Hdom Hdepth Hunfixed. split.
  2:{ rewrite (next_states_depth depth 82 new_state);
        [|apply new_state_ok|done|unfold size; lia].
      eexists. split; by vm_compute. }
  destruct (next_states_run depth b Hg Hdom Hdepth Hunfixed)
    as (row & col & e & cands & Hloc & Hrow & Hcol & He & Hf & Hall & Hnext).
  exists row, col, e, cands. split_and!; try done.
  - exact (Hdom row col e Hrow Hcol He).
  - apply map_result_Forall2. eapply Forall2_impl; [exact Hall|].
    by intros v nb [? _].
  - apply Forall_forall. intros nb Hnb.
    apply list_elem_of_lookup in Hnb as [i Hi].
    destruct (Forall2_lookup_r _ _ _ _ _ Hall Hi)
      as (v & _ & _ & b1 & log & Hpl & Hrep).
    assert (grid_ok nb) as Hgn.
    { eapply replay_grid_ok; [|exact Hrep]. by eapply places_grid_ok. }
    unfold is_possible.
    by destruct (solution_is_possible_spec nb Hgn) as (ok & -> & _).
  - intros Hnil. rewrite Hnil in Hall. inversion Hall; subst. exact Hnext.
Qed.

Lemma next_states_branches_witness :
  (∃ row col e cands,
     get_most_constrained_cell clash_board = Ok (Some (row, col)) ∧
     cell clash_board row col = Some e ∧ fixed e = false ∧
     domain_ok (domain e) ∧
     map_result (candidate 82 clash_board row col) (domain e) = Ok cands ∧
     Forall (λ nb, solution_is_possible nb = Ok (is_possible nb)) cands ∧
     next_states 82 clash_board
       = Ok (filter (λ nb, is_possible nb = true) cands) ∧
     (domain e = [] → next_states 82 clash_board = Ok [])) ∧
  (∃ l, next_states 82 new_state = Ok l ∧ length l = 9%nat).
Proof.
  apply (next_states_branches 82 clash_board).
  - apply board_check_sound. by vm_compute.
  - apply board_check_sound. by vm_compute.
  - unfold size. lia.
  - exists 0%nat, 0%nat, {| fixed := false; domain := [4; 5] |}.
    split_and!; [unfold size; lia | unfold size; lia | by vm_compute | done].
Defined.

(** ** Boards of exactly nine rows of nine cells *)

Lemma count_fixed_entries {A} (f : A → option SudokuEntry) (l : list A)
    (es : list SudokuEntry) :
  Some <$> es = f <$> l →
  length (filter (λ x, match f x with
                       | Some e => fixed e
                       | None => false
                       end = true) l)
  = length (filter (λ e, fixed e = true) es).
Proof.
  revert es. induction l as [|x l IH]; intros [|e es] Heq; try done.
  rewrite !fmap_cons in Heq. injection Heq as Hx Heq.
  rewrite !filter_cons, <- Hx.
  destruct (decide (fixed e = true)); cbn [length]; by rewrite (IH es).
Qed.

Lemma shape_ok_cells b :
  shape_ok b →
  Some <$> concat (board b) = (λ pos, cell b pos.1 pos.2) <$> positions.
Proof.
  unfold shape_ok, cell. destruct b as [n rows]. cbn [board]. intros Hshape.
  do 10 (destruct rows as [|? rows]; try discriminate Hshape).
  cbn in Hshape.
  repeat match goal with
         | r : list SudokuEntry |- _ =>
             do 10 (destruct r as [|? r]; try discriminate Hshape)
         end.
  reflexivity.
Qed.

Lemma count_fixed_board b :
  shape_ok b →
  count_fixed b = length (filter (λ e, fixed e = true) (concat (board b))).
Proof.
  intros Hshape. unfold count_fixed, cell_fixed.
  apply count_fixed_entries. by apply shape_ok_cells.
Qed.

Lemma shape_ok_grid_ok b : shape_ok b → grid_ok b.
Proof.
  intros Hshape p q Hp Hq.
  assert (((λ pos, cell b pos.1 pos.2) <$> positions)
          !! (p * size + q)%nat = Some (cell b p q)) as Hcell.
  { rewrite list_lookup_fmap, positions_lookup.
    unfold size in *. euclid9 (p * 9 + q)%nat.
    rewrite decide_True by lia. cbn [fmap option_fmap option_map fst snd].
    do 2 f_equal; lia. }
  rewrite <- shape_ok_cells in Hcell by done.
  rewrite list_lookup_fmap in Hcell.
  destruct (concat (board b) !! (p * size + q)%nat); [|done].
  injection Hcell as <-. done.
Qed.

Lemma set_entry_shape b i j e : shape_ok b → shape_ok (set_entry b i j e).
Proof.
  unfold shape_ok, set_entry. cbn [board]. intros <-.
  apply list_eq. intros k. rewrite !list_lookup_fmap, list_lookup_alter.
  case_decide as Hk; [|done]. subst k.
  destruct (board b !! i); cbn; [|done]. by rewrite length_insert.
Qed.

Lemma remove_conflict_shape i j n b b' :
  remove_conflict i j n b = Ok b' → shape_ok b → shape_ok b'.
Proof.
  unfold remove_conflict. intros H Hshape.
  apply bind_Ok_inv in H as (e & _ & H).
  destruct (negb (is_fixed e)); [|by injection H as <-].
  apply bind_Ok_inv in H as (e' & _ & [= <-]). by apply set_entry_shape.
Qed.

Lemma add_number_shape r c v b b' :
  add_number r c v b = Ok b' → shape_ok b → shape_ok b'.
Proof.
  unfold add_number, remove_all_conflicts. intros H Hshape.
  apply bind_Ok_inv in H as (e & _ & H).
  apply bind_Ok_inv in H as (e' & _ & H).
  apply bind_Ok_inv in H as (s1 & H1 & H).
  apply bind_Ok_inv in H as (s2 & H2 & H3).
  apply (for_each_preserves shape_ok) in H1;
    [| intros; by eapply remove_conflict_shape | by apply set_entry_shape].
  apply (for_each_preserves shape_ok) in H2;
    [| intros; by eapply remove_conflict_shape | done].
  apply (for_each_preserves shape_ok) in H3; [done | | done].
  intros k x x' Hx Hs.
  apply (for_each_preserves shape_ok) in Hx; [done | | done].
  intros l y y' Hy Hs'. case_bool_decide.
  - by eapply remove_conflict_shape.
  - by injection Hy as <-.
Qed.

Lemma replay_shape b log b' : shape_ok b → replay b log b' → shape_ok b'.
Proof.
  intros Hshape Hrep.
  induction Hrep as [b|b ev b1 log b2 [(_ & _ & _ & Hadd) _] _ IH]; [done|].
  apply IH. by eapply add_number_shape.
Qed.

(** ** C9: the board invariant *)

(** C9.  Let the board satisfy the invariant: the grid is complete,
    [num_placed] is the number of fixed cells, and every fixed cell has
    exactly one value.  (On a board of exactly nine rows of nine cells the
    count is that of the fixed entries of the whole board.)  Then, with
    depth for 81 recursive calls:
    [add_number] on an unfixed cell with a value of its domain returns a
    board that satisfies the invariant; [propagate] returns such a board;
    every board returned by [next_states] satisfies it; and every board
    returned by the search satisfies it, has [num_placed = 81] and passes
    [solution_is_possible]. *)
Theorem board_invariant_preserved (depth : nat) (b : SudokuState) :
  board_inv b → (size * size < depth)%nat →
  (shape_ok b →
   num_placed b =
     Z.of_nat (length (filter (λ e, fixed e = true) (concat (board b))))) ∧
  (∀ row col value e,
     (row < size)%nat → (col < size)%nat →
     cell b row col = Some e → fixed e = false → value ∈ domain e →
     ∃ b', add_number row col value b = Ok b' ∧ board_inv b') ∧
  (∃ b', propagate depth b = Ok b' ∧ board_inv b') ∧
  (∀ l, next_states depth b = Ok l → Forall board_inv l) ∧
  (∀ l, solve depth b = Ok l →
     Forall (λ g, board_inv g ∧ num_placed g = 81 ∧
                  solution_is_possible g = Ok true) l).
Proof.
  intros Hinv Hdepth. pose proof Hinv as (Hg & Hcount & _). split_and!.
  - intros Hshape. by rewrite <- count_fixed_board.
  - intros row col value e Hrow Hcol He Hf Hv.
    destruct (add_number_spec row col value b e Hg Hrow Hcol He Hv)
      as (b' & Hadd & _).
    exists b'. split; [done|].
    apply (places_board_inv row col value b b' Hinv).
    repeat split; eauto.
  - destruct (propagate_run depth b Hg Hdepth)
      as (b' & log & _ & Hrun & Hrep & _).
    exists b'. split; [done|]. by eapply replay_board_inv.
  - intros l Hl.
    pose proof (next_states_children depth b l Hg Hdepth Hl) as Hch.
    eapply Forall_impl; [exact Hch|]. intros nb. by apply child_board_inv.
  - intros l Hl. apply Forall_forall. intros g Hin.
    apply (dfs_reaches _ _ _ _ _ Hl) in Hin.
    destruct (reaches_board_inv depth b g Hdepth Hinv Hin) as [Hgi Hgoal].
    apply is_goal_spec in Hgoal. split_and!; try done.
    apply solution_is_possible_true; [apply Hgi|].
    by apply full_board_possible.
Qed.

Lemma board_invariant_preserved_witness :
  (shape_ok (get_ok problem1) →
   num_placed (get_ok problem1) =
     Z.of_nat (length (filter (λ e, fixed e = true)
                              (concat (board (get_ok problem1)))))) ∧
  (∀ row col value e,
     (row < size)%nat → (col < size)%nat →
     cell (get_ok problem1) row col = Some e → fixed e = false →
     value ∈ domain e →
     ∃ b', add_number row col value (get_ok problem1) = Ok b' ∧
           board_inv b') ∧
  (∃ b', propagate 82 (get_ok problem1) = Ok b' ∧ board_inv b') ∧
  (∀ l, next_states 82 (get_ok problem1) = Ok l → Forall board_inv l) ∧
  (∀ l, solve 82 (get_ok problem1) = Ok l →
     Forall (λ g, board_inv g ∧ num_placed g = 81 ∧
                  solution_is_possible g = Ok true) l).
Proof.
  apply (board_invariant_preserved 82 (get_ok problem1)).
  - apply board_check_sound. by vm_compute.
  - unfold size. lia.
Defined.

(** ** C1: [dfs] *)

(** C1.  For every state type with [goal] and [successors]: [dfs] returns
    [[state]] on a goal state; on any other state it returns the
    concatenation, in the order of [successors], of the results of [dfs]
    on the successors; and a list it returns holds exactly the goal
    states reachable from the state.  On a Sudoku board that satisfies
    the invariants, with depth for 81 nested calls, the search returns
    normally; its result is empty when no goal state is reachable, as it
    is for the unsatisfiable puzzle [clash_board]. *)
Theorem dfs_enumerates_goal_states :
  (∀ (State : Type) (goal : State → bool)
     (successors : State → result (list State))
     (depth : nat) (state : State),
     (goal state = true →
      dfs goal successors (S depth) state = Ok [state]) ∧
     (goal state = false →
      dfs goal successors (S depth) state =
        (succs ← successors state;
         rs ← map_result (dfs goal successors depth) succs;
         Ok (concat rs))) ∧
     (∀ l, dfs goal successors depth state = Ok l →
           ∀ g, g ∈ l ↔ reaches goal successors state g)) ∧
  (∀ depth b,
     board_inv b → domains_ok b → (size * size < depth)%nat →
     ∃ l, solve depth b = Ok l ∧
          (∀ g, g ∈ l ↔ reaches is_goal (next_states depth) b g) ∧
          ((∀ g, ¬ reaches is_goal (next_states depth) b g) → l = [])) ∧
  solve 82 clash_board = Ok [].
Proof.
  split_and!.
  - intros State goal successors depth state. split_and!.
    + intros Hgoal. by rewrite dfs_unfold, Hgoal.
    + intros Hgoal. by rewrite dfs_unfold, Hgoal.
    + apply dfs_reaches.
  - intros depth b Hinv Hdom Hdepth.
    destruct (dfs_sudoku_total depth depth b Hinv Hdom Hdepth) as [l Hl].
    { pose proof (unfixed_count_bound b). lia. }
    exists l. split; [done|].
    pose proof (dfs_reaches _ _ _ _ _ Hl) as Hreach. split; [done|].
    intros Hnone. destruct l as [|g l]; [done|].
    destruct (Hnone g). apply Hreach. left.
  - by vm_compute.
Qed.

Lemma dfs_enumerates_goal_states_witness :
  ∃ l, solve 82 (get_ok problem1) = Ok l ∧
       (∀ g, g ∈ l ↔ reaches is_goal (next_states 82) (get_ok problem1) g) ∧
       ((∀ g, ¬ reaches is_goal (next_states 82) (get_ok problem1) g) →
        l = []).
Proof.
  apply (proj1 (proj2 dfs_enumerates_goal_states) 82%nat (get_ok problem1)).
  - apply board_check_sound. by vm_compute.
  - apply board_check_sound. by vm_compute.
  - unfold size. lia.
Defined.

(** ** C10: [next_states] and the board it is called on *)

(** *** Writing entry objects *)

Lemma write_cells_frame refs es (E : gmap nat SudokuEntry) r :
  r ∉ refs → write_cells refs es E !! r = E !! r.
Proof.
  revert es. induction refs as [|r0 refs IH]; intros [|e0 es] Hr; try done.
  apply not_elem_of_cons in Hr as [Hne Hr]. unfold write_cells. cbn.
  rewrite lookup_insert_ne by done. by apply IH.
Qed.

Lemma write_cells_hit refs es (E : gmap nat SudokuEntry) i r e :
  NoDup refs → refs !! i = Some r → es !! i = Some e →
  write_cells refs es E !! r = Some e.
Proof.
  intros Hnd. revert es i.
  induction Hnd as [|r0 refs Hr0 Hnd IH]; intros [|e0 es] [|i] Hr He;
    try done; unfold write_cells; cbn in *.
  - injection Hr as ->. injection He as ->. apply lookup_insert_eq.
  - rewrite lookup_insert_ne; [by eapply IH|].
    intros ->. apply Hr0. by eapply list_elem_of_lookup_2.
Qed.

Lemma row_in_frame (E E' : gmap nat SudokuEntry) refs es :
  (∀ r, r ∈ refs → E' !! r = E !! r) →
  Forall2 (λ r e, E !! r = Some e) refs es →
  Forall2 (λ r e, E' !! r = Some e) refs es.
Proof.
  intros Hsame Hrow. induction Hrow as [|r e refs es Hre Hrow IH];
    constructor.
  - rewrite Hsame; [done | left].
  - apply IH. intros r' Hr'. apply Hsame. by right.
Qed.

Lemma rows_in_frame (E E' : gmap nat SudokuEntry) g rows :
  (∀ r, r ∈ mjoin g → E' !! r = E !! r) →
  rows_in E g rows → rows_in E' g rows.
Proof.
  intros Hsame Hrows. induction Hrows as [|refs es g rows Hrow Hrows IH];
    constructor.
  - eapply row_in_frame; [|exact Hrow]. intros r Hr. apply Hsame.
    change (mjoin (refs :: g)) with (refs ++ mjoin g).
    apply elem_of_app. by left.
  - apply IH. intros r Hr. apply Hsame.
    change (mjoin (refs :: g)) with (refs ++ mjoin g).
    apply elem_of_app. by right.
Qed.

Lemma rows_in_mono (E E' : gmap nat SudokuEntry) g rows :
  E ⊆ E' → rows_in E g rows → rows_in E' g rows.
Proof.
  intros Hsub Hrows. eapply Forall2_impl; [exact Hrows|].
  intros refs es Hrow. eapply Forall2_impl; [exact Hrow|].
  intros r e Hre. cbv beta in *. exact (lookup_weaken _ _ _ _ Hre Hsub).
Qed.

Lemma rows_in_lengths (E : gmap nat SudokuEntry) g rows :
  rows_in E g rows → length <$> g = length <$> rows.
Proof.
  induction 1 as [|refs es g rows Hrow _ IH]; [done|].
  rewrite !fmap_cons, IH. f_equal. by eapply Forall2_length.
Qed.

Lemma write_rows_frame g rows (E : gmap nat SudokuEntry) r :
  r ∉ mjoin g → write_rows g rows E !! r = E !! r.
Proof.
  revert rows. induction g as [|refs g IH]; intros [|es rows] Hr; try done.
  change (mjoin (refs :: g)) with (refs ++ mjoin g) in Hr.
  apply not_elem_of_app in Hr as [Hr1 Hr2].
  change (write_rows (refs :: g) (es :: rows) E)
    with (write_cells refs es (write_rows g rows E)).
  rewrite write_cells_frame by done. by apply IH.
Qed.

Lemma write_rows_hit g rows (E : gmap nat SudokuEntry) :
  NoDup (mjoin g) → length <$> g = length <$> rows →
  rows_in (write_rows g rows E) g rows.
Proof.
  revert rows. induction g as [|refs g IH]; intros [|es rows] Hnd Hlen;
    try done; [constructor|].
  change (mjoin (refs :: g)) with (refs ++ mjoin g) in Hnd.
  apply NoDup_app in Hnd as (Hnd1 & Hdisj & Hnd2).
  rewrite !fmap_cons in Hlen. injection Hlen as Hlen1 Hlen.
  change (write_rows (refs :: g) (es :: rows) E)
    with (write_cells refs es (write_rows g rows E)).
  constructor.
  - apply Forall2_same_length_lookup. split; [done|].
    intros i r e Hr He. by eapply write_cells_hit.
  - eapply rows_in_frame; [|apply (IH rows Hnd2 Hlen)].
    intros r Hr. apply write_cells_frame. intros Hr1.
    by apply (Hdisj r).
Qed.

(** *** Allocating entry objects *)

Lemma alloc_rows_spec rows (E : gmap nat SudokuEntry) g E' :
  alloc_rows rows E = (g, E') →
  E ⊆ E' ∧ rows_in E' g rows ∧ NoDup (mjoin g) ∧
  ∀ r, r ∈ mjoin g → E !! r = None.
Proof.
  revert E g E'. induction rows as [|es rows IH]; intros E g E' Halloc.
  - injection Halloc as <- <-. split_and!; try done; try constructor.
    intros r Hr. by apply elem_of_nil in Hr.
  - cbn [alloc_rows] in Halloc.
    set (refs := fresh_list (length es) (dom E)) in *.
    destruct (alloc_rows rows (write_cells refs es E)) as [g1 E1] eqn:Hrec.
    injection Halloc as <- <-.
    destruct (IH _ _ _ Hrec) as (Hsub & Hrows & Hnd & Hfresh).
    assert (∀ r, r ∈ refs → E !! r = None) as Hrefs.
    { intros r Hr. apply not_elem_of_dom.
      by apply (fresh_list_is_fresh (length es) (dom E)). }
    assert (E ⊆ write_cells refs es E) as Hsub0.
    { apply map_subseteq_spec. intros r e Hre.
      rewrite write_cells_frame; [done|]. intros Hr.
      rewrite (Hrefs r Hr) in Hre. done. }
    assert (∀ r, r ∈ mjoin g1 → r ∉ refs) as Hdisj.
    { intros r Hr Hr'. specialize (Hfresh r Hr).
      apply list_elem_of_lookup in Hr' as [i Hi].
      destruct (lookup_lt_is_Some_2 es i) as [e He].
      { rewrite <- (length_fresh_list (length es) (dom E)).
        by eapply lookup_lt_Some. }
      rewrite (write_cells_hit refs es E i r e) in Hfresh; try done.
      apply NoDup_fresh_list. }
    split_and!.
    + by etrans.
    + constructor; [|done].
      apply Forall2_same_length_lookup. split.
      { apply length_fresh_list. }
      intros i r e Hr He. eapply lookup_weaken; [|exact Hsub].
      eapply write_cells_hit; try done. apply NoDup_fresh_list.
    + change (mjoin (refs :: g1)) with (refs ++ mjoin g1).
      apply NoDup_app. split_and!; [apply NoDup_fresh_list | | done].
      intros r Hr Hr1. by apply (Hdisj r).
    + intros r Hr. change (mjoin (refs :: g1)) with (refs ++ mjoin g1) in Hr.
      apply elem_of_app in Hr as [Hr|Hr]; [by apply Hrefs|].
      specialize (Hfresh r Hr). rewrite write_cells_frame in Hfresh; [done|].
      by apply Hdisj.
Qed.

(** *** What a board object denotes *)

Lemma mapM_rows (E : gmap nat SudokuEntry) g rows :
  mapM (mapM (λ r, E !! r)) g = Some rows ↔ rows_in E g rows.
Proof.
  unfold rows_in. rewrite mapM_Some.
  split; intros H; (eapply Forall2_impl; [exact H|]);
    intros refs es; apply mapM_Some.
Qed.

Lemma view_spec h ref s :
  view h ref = Some s ↔
  ∃ o, boards h !! ref = Some o ∧ num_placed s = obj_num_placed o ∧
       rows_in (cells h) (obj_rows o) (board s).
Proof.
  unfold view. destruct (boards h !! ref) as [o|]; cbn.
  2:{ split; [done|]. by intros (o & ? & _). }
  destruct (mapM (mapM (λ r, cells h !! r)) (obj_rows o)) as [rows|] eqn:Hm;
    cbn.
  - split.
    + intros [= <-]. exists o. split_and!; try done. by apply mapM_rows.
    + intros (o' & [= <-] & Hn & Hrows). apply mapM_rows in Hrows.
      rewrite Hm in Hrows. injection Hrows as ->.
      destruct s as [n rows']. cbn in *. by subst n.
  - split; [done|]. intros (o' & [= <-] & Hn & Hrows).
    apply mapM_rows in Hrows. congruence.
Qed.

Lemma view_mono h h' ref s :
  heap_incl h h' → view h ref = Some s → view h' ref = Some s.
Proof.
  intros [Hb Hc]. rewrite !view_spec. intros (o & Ho & Hn & Hrows).
  exists o. split_and!; [by eapply lookup_weaken | done |].
  by eapply rows_in_mono.
Qed.

Lemma heap_incl_refl h : heap_incl h h.
Proof. by split. Qed.

Lemma heap_incl_trans h1 h2 h3 :
  heap_incl h1 h2 → heap_incl h2 h3 → heap_incl h1 h3.
Proof. intros [? ?] [? ?]. split; by etrans. Qed.

(** *** The methods keep the shape of the board *)

Lemma for_loop_preserves {A S R} (P : S → Prop) (Q : R → Prop) (xs : list A)
    (body : A → S → result (flow S R)) s f :
  (∀ x s f, body x s = Ok f → P s →
            match f with Continue s' => P s' | Return r => Q r end) →
  P s → for_loop xs body s = Ok f →
  match f with Continue s' => P s' | Return r => Q r end.
Proof.
  intros Hbody. revert s. induction xs as [|x xs IH]; intros s Hs Hrun.
  - cbn in Hrun. by inversion Hrun; subst.
  - cbn in Hrun. apply bind_Ok_inv in Hrun as (f0 & Hf0 & Hrun).
    specialize (Hbody x s f0 Hf0 Hs). destruct f0 as [s'|r].
    + by apply (IH s').
    + inversion Hrun; subst. exact Hbody.
Qed.

Lemma set_entry_lengths b i j e :
  length <$> board (set_entry b i j e) = length <$> board b.
Proof.
  unfold set_entry. cbn [board].
  apply list_eq. intros k. rewrite !list_lookup_fmap, list_lookup_alter.
  case_decide as Hk; [|done]. subst k.
  destruct (board b !! i); cbn; [|done]. by rewrite length_insert.
Qed.

Lemma remove_conflict_lengths i j n b b' :
  remove_conflict i j n b = Ok b' →
  length <$> board b' = length <$> board b.
Proof.
  unfold remove_conflict. intros H.
  apply bind_Ok_inv in H as (e & _ & H).
  destruct (negb (is_fixed e)); [|by injection H as <-].
  apply bind_Ok_inv in H as (e' & _ & [= <-]). apply set_entry_lengths.
Qed.

Lemma add_number_lengths r c v b b' :
  add_number r c v b = Ok b' → length <$> board b' = length <$> board b.
Proof.
  unfold add_number, remove_all_conflicts. intros H.
  apply bind_Ok_inv in H as (e & _ & H).
  apply bind_Ok_inv in H as (e' & _ & H).
  apply bind_Ok_inv in H as (s1 & H1 & H).
  apply bind_Ok_inv in H as (s2 & H2 & H3).
  set (L := length <$> board b).
  assert (∀ i j x x', remove_conflict i j v x = Ok x' →
            length <$> board x = L → length <$> board x' = L) as Hrc.
  { intros i j x x' Hx <-. by eapply remove_conflict_lengths. }
  apply (for_each_preserves (λ x, length <$> board x = L)) in H1;
    [| intros; by eapply Hrc | apply set_entry_lengths].
  apply (for_each_preserves (λ x, length <$> board x = L)) in H2;
    [| intros; by eapply Hrc | done].
  apply (for_each_preserves (λ x, length <$> board x = L)) in H3;
    [done | | done].
  intros k x x' Hx Hs.
  apply (for_each_preserves (λ x, length <$> board x = L)) in Hx;
    [done | | done].
  intros l y y' Hy Hs'. case_bool_decide.
  - by eapply Hrc.
  - by injection Hy as <-.
Qed.

Lemma propagate_lengths depth b b' :
  propagate depth b = Ok b' → length <$> board b' = length <$> board b.
Proof.
  revert b b'. induction depth as [|depth IH]; intros b b' Hrun; [done|].
  cbn [propagate] in Hrun. unfold propagate_body in Hrun.
  apply bind_Ok_inv in Hrun as (f & Hloop & Hf).
  set (L := length <$> board b).
  apply (for_loop_preserves (λ x, length <$> board x = L)
           (λ x, length <$> board x = L)) in Hloop; [| |done].
  { destruct f; injection Hf as <-; done. }
  clear Hloop Hf f. intros ri s f Hinner Hs.
  apply (for_loop_preserves (λ x, length <$> board x = L)
           (λ x, length <$> board x = L)) in Hinner; [done| |done].
  clear Hinner Hs s f. intros ci s f Hstep Hs.
  apply bind_Ok_inv in Hstep as (e & _ & Hstep).
  destruct (negb (is_fixed e) && bool_decide (width e = 1%nat));
    [|by injection Hstep as <-].
  apply bind_Ok_inv in Hstep as (v & _ & Hstep).
  apply bind_Ok_inv in Hstep as (s1 & Hadd & Hstep).
  apply add_number_lengths in Hadd.
  apply bind_Ok_inv in Hstep as ([] & _ & Hstep).
  - apply bind_Ok_inv in Hstep as (s2 & Hrec & [= <-]).
    apply IH in Hrec. congruence.
  - injection Hstep as <-. congruence.
Qed.

(** *** One board object, one method call *)

Lemma made_after_view hc h1 n s : made_after hc h1 n s → view h1 n = Some s.
Proof.
  intros (_ & _ & g & Hn & Hrows & _). apply view_spec.
  eexists. split; [exact Hn|]. done.
Qed.

Lemma deepcopy_obj_spec hc self s :
  view hc self = Some s →
  ∃ n h1, deepcopy_obj self hc = (Ok n, h1) ∧ made_after hc h1 n s.
Proof.
  intros Hself. unfold deepcopy_obj. rewrite Hself.
  destruct (alloc_rows (board s) (cells hc)) as [g E] eqn:Halloc.
  destruct (alloc_rows_spec _ _ _ _ Halloc) as (Hsub & Hrows & Hnd & Hfresh).
  set (n := fresh (dom (boards hc))).
  assert (boards hc !! n = None) as Hn.
  { apply not_elem_of_dom. apply is_fresh. }
  eexists _, _. split; [done|]. split_and!; try done.
  - split; cbn; [by apply insert_subseteq | done].
  - exists g. cbn. split_and!; try done. apply lookup_insert_eq.
Qed.

Lemma call_spec hc h1 n s (method : SudokuState → result SudokuState) :
  made_after hc h1 n s →
  (∀ s', method s = Ok s' → length <$> board s' = length <$> board s) →
  match method s with
  | Ok s' => ∃ h2, call n method h1 = (Ok tt, h2) ∧ made_after hc h2 n s'
  | Raise e => call n method h1 = (Raise e, h1)
  end.
Proof.
  intros Hmade Hlen. pose proof (made_after_view _ _ _ _ Hmade) as Hview.
  destruct Hmade as ([Hb Hc] & Hn & g & Hobj & Hrows & Hnd & Hfresh).
  unfold call. rewrite Hview, Hobj.
  destruct (method s) as [s'|e] eqn:Hm; [|done].
  eexists. split; [done|]. cbn [obj_rows].
  split_and!; [split; cbn | done |].
  - apply map_subseteq_spec. intros ref o Ho.
    rewrite lookup_insert_ne by congruence. by eapply lookup_weaken.
  - apply map_subseteq_spec. intros r e Hr.
    rewrite write_rows_frame.
    + by eapply lookup_weaken.
    + intros Hin. rewrite (Hfresh r Hin) in Hr. done.
  - exists g. cbn. split_and!; try done.
    + apply lookup_insert_eq.
    + apply write_rows_hit; [done|].
      rewrite (Hlen s' eq_refl). by eapply rows_in_lengths.
Qed.

(** One iteration of the loop allocates one board object with its entry
    objects and writes only there. *)
Lemma next_states_obj_step depth self s row col value
    (h hc : heap) refs l :
  view hc self = Some s →
  heap_incl h hc → denotes h hc refs l →
  ∃ r hc',
    heap_bind (deepcopy_obj self) (λ new_board,
      heap_bind (call new_board (add_number row col value)) (λ _,
      heap_bind (call new_board (propagate depth)) (λ _,
      heap_bind (query new_board solution_is_possible)
        (λ (ok : bool) h,
           (Ok (if ok then refs ++ [new_board] else refs), h))))) hc
    = (r, hc') ∧
    heap_incl hc hc' ∧
    match r with
    | Ok refs' =>
        ∃ l', next_states_step depth s row col value l = Ok l' ∧
              denotes h hc' refs' l'
    | Raise e => next_states_step depth s row col value l = Raise e
    end.
Proof.
  intros Hself Hincl (Hnd & Hden).
  assert (∀ hc', heap_incl hc hc' →
            Forall2 (new_board_obj h hc') refs l) as Hden'.
  { intros hc' Hincl'. eapply Forall2_impl; [exact Hden|].
    intros ref nb (Hnew & Hview & o & Ho & Hndo & Hfresh).
    split_and!; [done | by eapply view_mono |].
    exists o. split_and!; try done. destruct Hincl' as [Hb _].
    by eapply lookup_weaken. }
  unfold next_states_step, deepcopy.
  destruct (deepcopy_obj_spec hc self s Hself) as (n & h1 & Hcopy & Hmade1).
  unfold heap_bind at 1. rewrite Hcopy.
  (* add_number on the copy *)
  pose proof (call_spec hc h1 n s (add_number row col value) Hmade1) as Hcall1.
  unfold heap_bind at 1.
  destruct (add_number row col value s) as [s1|err] eqn:Hadd; ok_step.
  2:{ rewrite Hcall1 by (intros; done).
      eexists _, _. split; [done|]. split; [apply Hmade1 | done]. }
  destruct Hcall1 as (h2 & -> & Hmade2).
  { intros s' [= <-]. by eapply add_number_lengths. }
  (* propagate on the copy *)
  pose proof (call_spec hc h2 n s1 (propagate depth) Hmade2) as Hcall2.
  unfold heap_bind at 1.
  destruct (propagate depth s1) as [s2|err] eqn:Hprop; ok_step.
  2:{ rewrite Hcall2 by (intros; done).
      eexists _, _. split; [done|]. split; [apply Hmade2 | done]. }
  destruct Hcall2 as (h3 & -> & Hmade3).
  { intros s' [= <-]. by eapply propagate_lengths. }
  (* the test *)
  unfold heap_bind at 1. unfold query.
  rewrite (made_after_view _ _ _ _ Hmade3).
  destruct (solution_is_possible s2) as [ok|err]; ok_step.
  2:{ eexists _, _. split; [done|]. split; [apply Hmade3 | done]. }
  eexists _, _. split; [done|]. split; [apply Hmade3|].
  destruct Hmade3 as (Hincl3 & Hn & g & Hobj & Hrows & Hndg & Hfresh).
  destruct ok.
  - exists (l ++ [s2]). split; [done|]. split.
    + apply NoDup_app. split_and!; [done| |apply NoDup_singleton].
      intros ref Href ->%list_elem_of_singleton.
      apply list_elem_of_lookup in Href as [i Hi].
      destruct (Forall2_lookup_l _ _ _ _ _ Hden Hi)
        as (nb & _ & _ & _ & o & Ho & _).
      congruence.
    + apply Forall2_app; [by apply Hden'|]. constructor; [|constructor].
      split_and!.
      * destruct (boards h !! n) as [o|] eqn:Ho; [|done].
        destruct Hincl as [Hb _].
        apply (lookup_weaken _ _ _ _ Ho) in Hb. congruence.
      * apply view_spec. eexists. split; [exact Hobj|]. done.
      * eexists. split; [exact Hobj|]. split; [done|].
        intros r Hr. specialize (Hfresh r Hr).
        destruct (cells h !! r) as [e|] eqn:He; [|done].
        destruct Hincl as [_ Hc].
        apply (lookup_weaken _ _ _ _ He) in Hc. congruence.
  - exists l. split; [done|]. split; [done | by apply Hden'].
Qed.

Lemma next_states_obj_loop depth self s row col vals :
  ∀ (h hc : heap) refs l,
    view hc self = Some s → heap_incl h hc → denotes h hc refs l →
    ∃ r hc',
      heap_for vals (λ value next_state,
        heap_bind (deepcopy_obj self) (λ new_board,
        heap_bind (call new_board (add_number row col value)) (λ _,
        heap_bind (call new_board (propagate depth)) (λ _,
        heap_bind (query new_board solution_is_possible)
          (λ (ok : bool) h,
             (Ok (if ok then next_state ++ [new_board] else next_state),
              h)))))) refs hc
      = (r, hc') ∧
      heap_incl hc hc' ∧
      match r with
      | Ok refs' =>
          ∃ l', for_each vals (next_states_step depth s row col) l = Ok l' ∧
                denotes h hc' refs' l'
      | Raise e => for_each vals (next_states_step depth s row col) l = Raise e
      end.
Proof.
  induction vals as [|value vals IH]; intros h hc refs l Hself Hincl Hden.
  - exists (Ok refs), hc. split; [done|]. split; [apply heap_incl_refl|].
    by exists l.
  - cbn [heap_for for_each]. unfold heap_bind at 1.
    destruct (next_states_obj_step depth self s row col value h hc refs l
                Hself Hincl Hden) as (r & hc1 & -> & Hincl1 & Hr).
    destruct r as [refs1|err].
    + destruct Hr as (l1 & -> & Hden1). ok_step.
      destruct (IH h hc1 refs1 l1) as (r & hc2 & Hrun & Hincl2 & Hr);
        [by eapply view_mono | by eapply heap_incl_trans | done |].
      exists r, hc2. split; [done|].
      split; [by eapply heap_incl_trans | done].
    + rewrite Hr. exists (Raise err), hc1. done.
Qed.

(** C10.  Run [next_states] on a heap in which [self] denotes the board
    [s].  Whether it returns or raises, afterwards every board object and
    every entry object that existed before the call has the fields it had
    (the heap has only grown), so [self] still denotes [s]: its 81
    domains, its fixed flags and its [num_placed] are what they were.  If
    the call returns, the references returned are distinct board objects
    that did not exist before the call, none of their entry objects existed
    before the call, and they denote exactly the boards that [next_states]
    computes from the value [s]; if it raises, so does [next_states] on
    [s]. *)
Theorem next_states_leaves_parent_unchanged
    (depth : nat) (self : nat) (h : heap) (s : SudokuState) :
  view h self = Some s →
  ∃ r h', next_states_obj depth self h = (r, h') ∧
          view h' self = Some s ∧
          boards h ⊆ boards h' ∧ cells h ⊆ cells h' ∧
          match r with
          | Ok refs =>
              ∃ l, next_states depth s = Ok l ∧ denotes h h' refs l
          | Raise e => next_states depth s = Raise e
          end.
Proof.
  intros Hself. unfold next_states_obj, next_states.
  unfold heap_bind at 1. unfold query at 1. rewrite Hself.
  destruct (get_most_constrained_cell s) as [[[row col]|]|err]; ok_step.
  2,3: by (eexists _, _; split_and!; [done | done | done | done | done]).
  unfold heap_bind at 1. unfold query at 1. rewrite Hself.
  destruct (get_entry s row col) as [e|err]; ok_step.
  2: by (eexists _, _; split_and!; [done | done | done | done | done]).
  destruct (next_states_obj_loop depth self s row col (values e) h h [] [])
    as (r & h' & Hrun & [Hb Hc] & Hr); [done | apply heap_incl_refl | |].
  { split; constructor. }
  exists r, h'. split_and!; try done.
  by eapply view_mono.
Qed.

Lemma heap_of_view s : view (heap_of s) 0 = Some s.
Proof.
  unfold heap_of.
  destruct (alloc_rows (board s) ∅) as [g E] eqn:Halloc.
  destruct (alloc_rows_spec _ _ _ _ Halloc) as (_ & Hrows & _).
  apply view_spec. eexists. split; [apply lookup_singleton_eq|]. done.
Qed.

Lemma next_states_leaves_parent_unchanged_witness :
  ∃ r h', next_states_obj 82 0 (heap_of clash_board) = (r, h') ∧
          view h' 0 = Some clash_board ∧
          boards (heap_of clash_board) ⊆ boards h' ∧
          cells (heap_of clash_board) ⊆ cells h' ∧
          match r with
          | Ok refs =>
              ∃ l, next_states 82 clash_board = Ok l ∧
                   denotes (heap_of clash_board) h' refs l
          | Raise e => next_states 82 clash_board = Raise e
          end.
Proof.
  apply (next_states_leaves_parent_unchanged
           82 0 (heap_of clash_board) clash_board).
  apply heap_of_view.
Defined.

(** * Further properties of the code *)

(** ** [get_subgrid_number] *)




(** ** [eliminate] *)





(** ** [remove_conflict] and [remove_all_conflicts] *)



(** ** [solution_is_possible] *)



(** ** [get_any_available_cell] *)




(** ** [is_goal] and full boards *)





(** ** Boards that only lose candidates *)







(** ** Fixed values and the candidates of their peers *)








(** ** Building a puzzle from clues *)









(** ** The boards that [dfs] returns are valid grids *)










(** ** [dfs] finds every valid grid *)













(** ** What [propagate] changes *)






(** ** [add_number] on a cell that is already fixed, or against a peer *)





(** ** The invariant on fixed values *)



(** ** The successors of a board *)



(** ** [dfs] returns no board twice *)








(** ** What [add_number] leaves alone *)



(** ** [dfs] on a board that cannot be completed *)


